(** * Scenario submission and progression workflow

    A shallow embedding of [ScenarioController.submit]
    (api/src/controllers, the handler behind POST /scenarios/:id/submit),
    of the [requireAuth] middleware that guards its route, and of the
    persistence gateways the handler calls.

    The handler is a function in a state monad over the relational
    store; every gateway write is also recorded in a log, so that "this
    write is issued" and "this row is stored" can both be stated.
    Numbers that hold ids, counts and orders are integers; the score is
    computed in binary64, with the primitive floats, as the runtime
    does.  Text is ASCII.  The answers of a submission are JSON strings
    or nulls.

    Layout: JavaScript primitives; entities and store; gateways;
    requests and responses; grading; the progression cascade; the
    handler and its route; grading in the specification's words;
    auxiliary definitions and sample data; the [isAdmin] middleware,
    the guard pair of the admin routes, [errorHandler] and
    [UserController.list] behind its guards; then the properties. *)

From Stdlib Require Import ZArith List String Ascii Bool Lia Floats Uint63.
From Stdlib Require Import Sorting.Sorted Sorting.Permutation.
From stdpp Require Import base option gmap.
Import ListNotations.

Local Open Scope string_scope.
Local Open Scope list_scope.
Local Open Scope Z_scope.

(** ** JavaScript primitives *)

Module JS.

(** [String.prototype.toUpperCase], on ASCII text: the payload and the
    stored markers are option letters.  Characters outside [a-z] are left
    as they are. *)
Definition toUpperCase_char (c : ascii) : ascii :=
  let n := N_of_ascii c in
  if ((97 <=? n) && (n <=? 122))%N then ascii_of_N (n - 32) else c.

Fixpoint toUpperCase (s : string) : string :=
  match s with
  | EmptyString => EmptyString
  | String c s' => String (toUpperCase_char c) (toUpperCase s')
  end.

(** Truthiness of a string: only the empty string is falsy. *)
Definition truthy_string (s : string) : bool :=
  match s with
  | EmptyString => false
  | String _ _ => true
  end.

(** Truthiness of a number that holds an integer: only zero is falsy. *)
Definition truthy_number (n : Z) : bool := negb (n =? 0).

(** An integer-valued Number as a binary64 value (exact below 2^53;
    array lengths stay below 2^32). *)
Definition Number (n : Z) : float := PrimFloat.of_uint63 (Uint63.of_Z n).

(** [Math.round]: the integer closest to [x], ties towards +infinity,
    that is the floor of [x + 1/2] taken exactly.  A finite binary64
    value is [v * 2^e]; for [e < 0] the floor of [(2 v + 2^-e) / 2^(1-e)]
    is a right shift.  NaN and the infinities, which [Math.round] hands
    back unchanged, are not integers and are mapped to [0] here (the
    handler never reaches them: it divides by a positive step count). *)
Definition Math_round (x : float) : Z :=
  match Prim2SF x with
  | S754_finite s m e =>
      let v := if s then Z.neg m else Z.pos m in
      if 0 <=? e then Z.shiftl v e
      else Z.shiftr (Z.shiftl v 1 + Z.shiftl 1 (- e)) (1 - e)
  | _ => 0
  end.

End JS.

(** The expression [Math.round((correctCount / total) * 100)], evaluated
    in binary64 as the runtime does. *)
Definition round_percent (correctCount total : nat) : Z :=
  JS.Math_round
    (PrimFloat.mul
       (PrimFloat.div (JS.Number (Z.of_nat correctCount))
                      (JS.Number (Z.of_nat total)))
       (JS.Number 100)).

(** ** Entities *)

Record Scenario := {
  scenario_id : Z;
  level_id : Z;
  title : string
}.

(** [correct_action] is [None] when the column is null. *)
Record ScenarioStep := {
  step_id : Z;
  step_scenario_id : Z;
  step_order : Z;
  correct_action : option string
}.

Record Badge := {
  badge_id : Z;
  badge_level_id : Z;
  name : string;
  description : string;
  icon_url : string
}.

(** Attempt rows are keyed by (user_id, scenario_id), UserLevel rows by
    (user_id, level_id); the records below are the remaining columns.
    Timestamp and surrogate-id columns are not represented. *)
Record Attempt := {
  score : Z;
  all_correct : bool
}.

Record UserLevel := {
  unlocked : bool;
  completed : bool
}.

Record UserBadge := {
  ub_user_id : Z;
  ub_badge_id : Z
}.

(** The relational store.  The two keyed tables are finite maps; the
    UserBadge table is a plain list of rows, since nothing but the
    handler's existence check keeps a pair from being inserted twice. *)
Record Store := {
  scenarios : list Scenario;
  scenario_steps : list ScenarioStep;
  badges : list Badge;
  attempts : gmap (Z * Z) Attempt;
  user_levels : gmap (Z * Z) UserLevel;
  user_badges : list UserBadge
}.

(** The progression writes a submission can issue, in call order. *)
Inductive Write :=
| WUpsertBestScore (user_id scenario_id : Z) (score : Z) (all_correct : bool)
| WUpsertProgress (user_id level_id : Z) (unlocked completed : bool)
| WCreateUserBadge (user_id badge_id : Z).

(** ** A state monad that records the writes *)

Definition M (A : Type) : Type := Store -> A * Store * list Write.

Definition ret {A} (a : A) : M A := fun st => (a, st, []).

Definition bind {A B} (m : M A) (k : A -> M B) : M B :=
  fun st =>
    let '(a, st1, w1) := m st in
    let '(b, st2, w2) := k a st1 in
    (b, st2, w1 ++ w2).

Notation "'await' x '::=' m 'in' k" := (bind m (fun x => k))
  (at level 10, x name, m at level 100, k at level 200).
Notation "'perform' m 'in' k" := (bind m (fun _ => k))
  (at level 10, m at level 100, k at level 200).

Definition reads {A} (f : Store -> A) : M A := fun st => (f st, st, []).

Definition writes (w : Write) (f : Store -> Store) : M unit :=
  fun st => (tt, f st, [w]).

Definition result_of {A} (r : A * Store * list Write) : A := fst (fst r).
Definition store_of {A} (r : A * Store * list Write) : Store := snd (fst r).
Definition writes_of {A} (r : A * Store * list Write) : list Write := snd r.

(** ** Persistence gateways *)

Module Repo.

(** Modelled from the spec: ScenarioRepository.findById (none of the
    repository classes under domain/repositories is available),
    [findById(id) -> Scenario|absent]. *)
Definition findById (id : Z) (st : Store) : option Scenario :=
  List.find (fun s => scenario_id s =? id) (scenarios st).

(** Modelled from the spec: ScenarioStepRepository.findByScenario,
    [findByScenario(scenario_id) -> ordered-or-unordered list of Step];
    the rows come back in storage order. *)
Definition findByScenario (id : Z) (st : Store) : list ScenarioStep :=
  List.filter (fun s => step_scenario_id s =? id) (scenario_steps st).

(** Modelled from the spec: ScenarioRepository.countByLevel, the number
    of scenarios in a level. *)
Definition countByLevel (lvl : Z) (st : Store) : Z :=
  Z.of_nat (length (List.filter (fun s => level_id s =? lvl) (scenarios st))).

(** An attempt row of [user], perfect, whose scenario is in level
    [lvl]. *)
Definition perfect_in_level (user lvl : Z) (st : Store)
    (row : Z * Z * Attempt) : bool :=
  let '(u, s, a) := row in
  (u =? user) && all_correct a &&
  match findById s st with
  | Some sc => level_id sc =? lvl
  | None => false
  end.

(** Modelled from the spec: AttemptRepository.countPerfectByUserInLevel,
    the number of perfect (all_correct) attempts of the user whose
    scenario belongs to the level. *)
Definition countPerfectByUserInLevel (user lvl : Z) (st : Store) : Z :=
  Z.of_nat (length (List.filter (perfect_in_level user lvl st)
                                (map_to_list (attempts st)))).

(** Modelled from the spec: AttemptRepository.upsertBestScore, which
    writes the row for (user, scenario) and always overwrites. *)
Definition upsertBestScore (user scen : Z) (sc : Z) (ac : bool)
    (st : Store) : Store :=
  {| scenarios := scenarios st;
     scenario_steps := scenario_steps st;
     badges := badges st;
     attempts := <[(user, scen) := {| score := sc; all_correct := ac |}]>
                   (attempts st);
     user_levels := user_levels st;
     user_badges := user_badges st |}.

(** Modelled from the spec: UserLevelRepository.upsertProgress, an
    upsert keyed by (user, level). *)
Definition upsertProgress (user lvl : Z) (un co : bool)
    (st : Store) : Store :=
  {| scenarios := scenarios st;
     scenario_steps := scenario_steps st;
     badges := badges st;
     attempts := attempts st;
     user_levels := <[(user, lvl) := {| unlocked := un; completed := co |}]>
                      (user_levels st);
     user_badges := user_badges st |}.

(** Modelled from the spec: BadgesRepository.findByLevel,
    [findByLevel(level_id) -> Badge|absent]. *)
Definition findByLevel (lvl : Z) (st : Store) : option Badge :=
  List.find (fun b => badge_level_id b =? lvl) (badges st).

(** The row belongs to the (user, badge) pair. *)
Definition is_user_badge (user badge : Z) (r : UserBadge) : bool :=
  (ub_user_id r =? user) && (ub_badge_id r =? badge).

(** Modelled from the spec: UserBadgeRepository.findByUserAndBadge,
    [findByUserAndBadge(user_id, badge_id) -> UserBadge|absent]. *)
Definition findByUserAndBadge (user badge : Z) (st : Store)
    : option UserBadge :=
  List.find (is_user_badge user badge) (user_badges st).

(** Modelled from the spec: UserBadgeRepository.create, a plain insert
    of a new row. *)
Definition create (user badge : Z) (st : Store) : Store :=
  {| scenarios := scenarios st;
     scenario_steps := scenario_steps st;
     badges := badges st;
     attempts := attempts st;
     user_levels := user_levels st;
     user_badges :=
       user_badges st ++ [{| ub_user_id := user; ub_badge_id := badge |}] |}.

End Repo.

(** ** Requests and responses *)

(** One element of the [userAnswers] array: a JSON string or null, the
    element type the route documents ([Array<string>]). *)
Inductive answer :=
| ANull
| AStr (s : string).

(** The [userAnswers] field of the request body. *)
Inductive body_value :=
| VUndefined
| VNull
| VBool (b : bool)
| VNum (n : Z)
| VStr (s : string)
| VObj
| VArr (l : list answer).

Definition truthy (v : body_value) : bool :=
  match v with
  | VUndefined | VNull => false
  | VBool b => b
  | VNum n => JS.truthy_number n
  | VStr s => JS.truthy_string s
  | VObj | VArr _ => true
  end.

Definition Array_isArray (v : body_value) : bool :=
  match v with
  | VArr _ => true
  | _ => false
  end.

Definition elements (v : body_value) : list answer :=
  match v with
  | VArr l => l
  | _ => []
  end.

(** [req.user], as [requireAuth] sets it. *)
Record AuthUser := {
  uid : Z;
  role : string
}.

(** What the handler reads from the request: [req.params.id] after
    [parseInt], [req.body.userAnswers] and [req.user]. *)
Record Request := {
  params_id : Z;
  userAnswers : body_value;
  user : option AuthUser
}.

Inductive LevelProgress :=
| LevelCompleted (level_id next_level_unlocked : Z)
| LevelIncomplete (level_id perfect_in_level total_in_level : Z).

Definition lp_completed (p : LevelProgress) : bool :=
  match p with
  | LevelCompleted _ _ => true
  | LevelIncomplete _ _ _ => false
  end.

Record AwardedBadge := {
  ab_badge_id : Z;
  ab_name : string;
  ab_description : string;
  ab_icon_url : string
}.

(** The [result] object; the three optional fields are [None] while the
    handler has not set them. *)
Record SubmitResult := {
  r_score : Z;
  r_all_correct : bool;
  r_level_id : Z;
  r_scenario_id : Z;
  level_progress : option LevelProgress;
  awarded_badge : option AwardedBadge;
  updated_scenario : option (option Scenario)
}.

Definition set_level_progress (p : LevelProgress) (r : SubmitResult) :=
  {| r_score := r_score r; r_all_correct := r_all_correct r;
     r_level_id := r_level_id r; r_scenario_id := r_scenario_id r;
     level_progress := Some p;
     awarded_badge := awarded_badge r;
     updated_scenario := updated_scenario r |}.

Definition set_awarded_badge (b : AwardedBadge) (r : SubmitResult) :=
  {| r_score := r_score r; r_all_correct := r_all_correct r;
     r_level_id := r_level_id r; r_scenario_id := r_scenario_id r;
     level_progress := level_progress r;
     awarded_badge := Some b;
     updated_scenario := updated_scenario r |}.

Definition set_updated_scenario (s : option Scenario) (r : SubmitResult) :=
  {| r_score := r_score r; r_all_correct := r_all_correct r;
     r_level_id := r_level_id r; r_scenario_id := r_scenario_id r;
     level_progress := level_progress r;
     awarded_badge := awarded_badge r;
     updated_scenario := Some s |}.

Inductive Body :=
| Message (message : string)
| AuthError (message : string)
| Result (r : SubmitResult).

Record Response := {
  status : Z;
  body : Body
}.

Definition json (code : Z) (b : Body) : Response :=
  {| status := code; body := b |}.

(** ** Services used by the handler *)

(** ScenarioService.getScenario: the repository row, as a DTO. *)
Definition getScenario (id : Z) : M (option Scenario) :=
  reads (Repo.findById id).

(** ScenarioStepService.getStepsByScenario: the repository rows mapped
    to DTOs, a fresh array. *)
Definition getStepsByScenario (id : Z) : M (list ScenarioStep) :=
  reads (Repo.findByScenario id).

(** ** Grading (handler lines 571-583) *)

(** [steps.sort((a, b) => Number(a.step_order) - Number(b.step_order))]:
    [Array.prototype.sort] is stable, so steps with the same order keep
    their storage order. *)
Fixpoint insert_step (s : ScenarioStep) (l : list ScenarioStep)
    : list ScenarioStep :=
  match l with
  | [] => [s]
  | h :: t =>
      if step_order s <=? step_order h then s :: l
      else h :: insert_step s t
  end.

Definition sort_steps (steps : list ScenarioStep) : list ScenarioStep :=
  fold_right insert_step [] steps.

(** [(userAnswers[i] || "").toString().toUpperCase()] *)
Definition picked_at (answers : list answer) (i : nat) : string :=
  JS.toUpperCase
    match nth_error answers i with
    | Some (AStr s) => if JS.truthy_string s then s else ""
    | Some ANull | None => ""
    end.

(** [(step.correct_action || "").toString().toUpperCase()] *)
Definition correct_of (step : ScenarioStep) : string :=
  JS.toUpperCase
    match correct_action step with
    | Some s => if JS.truthy_string s then s else ""
    | None => ""
    end.

(** The body of the [forEach] callback at index [i]. *)
Definition grade_step (answers : list answer) (step : ScenarioStep)
    (i : nat) (correctCount : nat) : nat :=
  let picked := picked_at answers i in
  let correct := correct_of step in
  if JS.truthy_string picked && String.eqb picked correct
  then S correctCount else correctCount.

(** [forEach((step, i) => ...)] from index [i] on. *)
Fixpoint forEach_grade (answers : list answer) (steps : list ScenarioStep)
    (i : nat) (correctCount : nat) : nat :=
  match steps with
  | [] => correctCount
  | step :: rest =>
      forEach_grade answers rest (S i) (grade_step answers step i correctCount)
  end.

Definition count_correct (steps : list ScenarioStep) (answers : list answer)
    : nat :=
  forEach_grade answers (sort_steps steps) 0 0.

(** Lines 571-590: the score, the flag and the initial [result]. *)
Definition grade (scenario : Scenario) (scenarioId : Z)
    (steps : list ScenarioStep) (answers : list answer) : SubmitResult :=
  let total := length steps in
  let correctCount := count_correct steps answers in
  let score := round_percent correctCount total in
  let allCorrect := (correctCount =? total)%nat in
  {| r_score := score; r_all_correct := allCorrect;
     r_level_id := level_id scenario; r_scenario_id := scenarioId;
     level_progress := None; awarded_badge := None;
     updated_scenario := None |}.

(** ** The progression cascade (handler lines 593-671) *)

(** The ceiling in [scenario.level_id < 6]: only levels below it unlock
    their successor. *)
Definition max_level : Z := 6.

(** [attemptRepo.upsertBestScore(data)]: the write, handing back the
    row. *)
Definition upsertBestScore (user scen sc : Z) (ac : bool) : M Attempt :=
  perform writes (WUpsertBestScore user scen sc ac)
                 (Repo.upsertBestScore user scen sc ac) in
  ret {| score := sc; all_correct := ac |}.

(** AttemptService.saveBestScore: the data goes to the repository as it
    is, and the row comes back as a DTO. *)
Definition saveBestScore (user scen sc : Z) (ac : bool) : M Attempt :=
  await attempt ::= upsertBestScore user scen sc ac in
  ret attempt.

Definition upsertProgress (user lvl : Z) (un co : bool) : M unit :=
  writes (WUpsertProgress user lvl un co) (Repo.upsertProgress user lvl un co).

Definition createUserBadge (user badge : Z) : M unit :=
  writes (WCreateUserBadge user badge) (Repo.create user badge).

Definition awarded_of (b : Badge) : AwardedBadge :=
  {| ab_badge_id := badge_id b; ab_name := name b;
     ab_description := description b; ab_icon_url := icon_url b |}.

(** Lines 638-656: the badge of the level, awarded if the user does not
    hold it yet. *)
Definition award_badge (userId : Z) (scenario : Scenario)
    (result : SubmitResult) : M SubmitResult :=
  await badge ::= reads (Repo.findByLevel (level_id scenario)) in
  match badge with
  | Some badge =>
      await existing ::=
        reads (Repo.findByUserAndBadge userId (badge_id badge)) in
      match existing with
      | None =>
          perform createUserBadge userId (badge_id badge) in
          ret (set_awarded_badge (awarded_of badge) result)
      | Some _ => ret result
      end
  | None => ret result
  end.

(** Lines 621-664: what follows the upsert of the current level. *)
Definition after_level_upsert (userId : Z) (scenario : Scenario)
    (completedThisLevel : bool) (perfectInLevel totalInLevel : Z)
    (result : SubmitResult) : M SubmitResult :=
  if completedThisLevel then
    let nextLevelId := level_id scenario + 1 in
    perform (if level_id scenario <? max_level
             then upsertProgress userId nextLevelId true false
             else ret tt) in
    award_badge userId scenario
      (set_level_progress
         (LevelCompleted (level_id scenario) nextLevelId) result)
  else
    ret (set_level_progress
           (LevelIncomplete (level_id scenario) perfectInLevel totalInLevel)
           result).

(** Lines 594-670: the body of [if (userId) { ... }]. *)
Definition recordSubmission (userId : Z) (scenario : Scenario)
    (scenarioId : Z) (result : SubmitResult) : M SubmitResult :=
  perform upsertBestScore userId scenarioId
            (r_score result) (r_all_correct result) in
  await perfectInLevel ::=
    reads (Repo.countPerfectByUserInLevel userId (level_id scenario)) in
  await totalInLevel ::=
    reads (Repo.countByLevel (level_id scenario)) in
  let completedThisLevel :=
    (0 <? totalInLevel) && (perfectInLevel =? totalInLevel) in
  perform upsertProgress userId (level_id scenario) true completedThisLevel in
  await result ::=
    after_level_upsert userId scenario completedThisLevel
      perfectInLevel totalInLevel result in
  await updatedScenario ::= getScenario scenarioId in
  ret (set_updated_scenario updatedScenario result).

(** [req.user?.id], when it is truthy. *)
Definition userId_of (req : Request) : option Z :=
  match user req with
  | Some u => if JS.truthy_number (uid u) then Some (uid u) else None
  | None => None
  end.

(** ** ScenarioController.submit *)

Definition submit (req : Request) : M Response :=
  let scenarioId := params_id req in
  if negb (truthy (userAnswers req)) || negb (Array_isArray (userAnswers req))
  then ret (json 400 (Message "userAnswers must be an array."))
  else
    await scenario ::= getScenario scenarioId in
    match scenario with
    | None => ret (json 404 (Message "Scenario not found"))
    | Some scenario =>
        await steps ::= getStepsByScenario scenarioId in
        if (length steps =? 0)%nat
        then ret (json 404 (Message "No steps found for this scenario."))
        else
          let result :=
            grade scenario scenarioId steps (elements (userAnswers req)) in
          match userId_of req with
          | Some userId =>
              await result ::=
                recordSubmission userId scenario scenarioId result in
              ret (json 200 (Result result))
          | None => ret (json 200 (Result result))
          end
    end.

(** ** The route: [requireAuth] in front of [submit] *)

Record JwtPayload := {
  sub : Z;
  payload_role : string
}.

(** What the route reads from the HTTP request. *)
Record HttpRequest := {
  authorization : option string;
  http_params_id : Z;
  http_userAnswers : body_value
}.

(** [authHeader.split(' ')] *)
Fixpoint split_space (s : string) : list string :=
  match s with
  | EmptyString => [EmptyString]
  | String c s' =>
      if Ascii.eqb c " "%char then EmptyString :: split_space s'
      else match split_space s' with
           | h :: t => String c h :: t
           | [] => [String c EmptyString]
           end
  end.

(** [requireAuth]: a 401 response, or the request with [req.user] set.
    [verifyAccess] (utils/jwt) checks the token; [None] stands for the
    exception it throws on an invalid or expired one. *)
Definition requireAuth (verifyAccess : string -> option JwtPayload)
    (h : HttpRequest) : Response + Request :=
  let authHeader := default "" (authorization h) in
  let parts := split_space authHeader in
  let scheme := nth_error parts 0 in
  let token := default "" (nth_error parts 1) in
  if negb (if scheme is Some s then String.eqb s "Bearer" else false)
     || negb (JS.truthy_string token)
  then inl (json 401 (AuthError "Missing or invalid authorization header"))
  else
    match verifyAccess token with
    | Some payload =>
        inr {| params_id := http_params_id h;
               userAnswers := http_userAnswers h;
               user := Some {| uid := sub payload;
                               role := payload_role payload |} |}
    | None => inl (json 401 (AuthError "Invalid or expired token"))
    end.

(** [scenarioRoutes.post("/:id/submit", requireAuth, controller.submit)] *)
Definition post_submit (verifyAccess : string -> option JwtPayload)
    (h : HttpRequest) : M Response :=
  match requireAuth verifyAccess h with
  | inl r => ret r
  | inr req => submit req
  end.

(** ** Grading as the specification words it *)

Module GradingSpec.

Definition fold_case (c : ascii) : ascii :=
  let n := N_of_ascii c in
  if ((65 <=? n) && (n <=? 90))%N then ascii_of_N (n + 32) else c.

(** Case-insensitive comparison: the two texts have the same length and
    agree letter by letter once case is folded. *)
Fixpoint equalsIgnoreCase (s t : string) : bool :=
  match s, t with
  | EmptyString, EmptyString => true
  | String a s', String b t' =>
      Ascii.eqb (fold_case a) (fold_case b) && equalsIgnoreCase s' t'
  | _, _ => false
  end.

(** Per-step correctness: a missing or empty answer is incorrect, any
    other answer is compared with the step's marker ignoring case. *)
Definition answer_correct (a : option answer) (step : ScenarioStep) : bool :=
  match a with
  | Some (AStr (String c s)) =>
      match correct_action step with
      | Some marker => equalsIgnoreCase (String c s) marker
      | None => false
      end
  | Some (AStr EmptyString) | Some ANull | None => false
  end.

(** The number of positions of the sorted step list whose answer is
    correct. *)
Definition correct_count (sorted : list ScenarioStep) (answers : list answer)
    : nat :=
  length
    (List.filter
       (fun i =>
          match nth_error sorted i with
          | Some step => answer_correct (nth_error answers i) step
          | None => false
          end)
       (seq 0 (length sorted))).

(** [score] is an integer closest to the exact percentage. *)
Definition closest_percent (score : Z) (correct total : nat) : Prop :=
  Z.abs (2 * (score * Z.of_nat total - 100 * Z.of_nat correct))
  <= Z.of_nat total.

End GradingSpec.

(** ** Auxiliary definitions for the properties *)

Definition step_le (a b : ScenarioStep) : Prop := step_order a <= step_order b.

(** No round or sticky bit set: nothing has been shifted out. *)
Definition exact_rec (mrs : shr_record) : Prop :=
  shr_r mrs = false /\ shr_s mrs = false.

(** A non-negative binary64 value, zero or [m * 2^e] with [e <= 0], that
    is at most the integer [B]. *)
Definition at_most (B : Z) (x : spec_float) : Prop :=
  match x with
  | S754_zero false => True
  | S754_finite false m e => e <= 0 /\ Zpos m <= B * 2 ^ (- e)
  | _ => False
  end.

(** The closeness test of [GradingSpec.closest_percent], as a boolean. *)
Definition percent_ok (c t : nat) : bool :=
  Z.abs (2 * (round_percent c t * Z.of_nat t - 100 * Z.of_nat c))
  <=? Z.of_nat t.

Definition percent_ok_upto (N : nat) : bool :=
  forallb (fun t => forallb (fun c => percent_ok c t) (seq 0 (S t))) (seq 1 N).

(** Step counts up to which the closeness of the binary64 result has
    been checked exhaustively. *)
Definition checked_steps : nat := 200.

(** The store right after the best-score upsert. *)
Definition after_best_score (userId scenarioId : Z) (result : SubmitResult)
    (st : Store) : Store :=
  Repo.upsertBestScore userId scenarioId
    (r_score result) (r_all_correct result) st.

(** [completedThisLevel], from the two counts read after the upsert. *)
Definition completed_flag (userId : Z) (lvl : Z) (st1 : Store) : bool :=
  (0 <? Repo.countByLevel lvl st1) &&
  (Repo.countPerfectByUserInLevel userId lvl st1 =? Repo.countByLevel lvl st1).

Definition completedThisLevel (userId : Z) (scenario : Scenario)
    (scenarioId : Z) (result : SubmitResult) (st : Store) : bool :=
  completed_flag userId (level_id scenario)
    (after_best_score userId scenarioId result st).

(** The store after the conditional unlock of the next level. *)
Definition after_unlock (userId : Z) (scenario : Scenario) (st : Store)
    : Store :=
  if level_id scenario <? max_level
  then Repo.upsertProgress userId (level_id scenario + 1) true false st
  else st.

Definition unlock_writes (userId : Z) (scenario : Scenario) : list Write :=
  if level_id scenario <? max_level
  then [WUpsertProgress userId (level_id scenario + 1) true false]
  else [].

(** The badge the award step creates a row for: the badge of the
    level, provided the user does not hold it yet. *)
Definition badge_to_award (userId : Z) (scenario : Scenario) (st : Store)
    : option Badge :=
  match Repo.findByLevel (level_id scenario) st with
  | Some badge =>
      match Repo.findByUserAndBadge userId (badge_id badge) st with
      | None => Some badge
      | Some _ => None
      end
  | None => None
  end.

Definition award_rows (userId : Z) (b : option Badge) : list UserBadge :=
  match b with
  | Some badge => [{| ub_user_id := userId; ub_badge_id := badge_id badge |}]
  | None => []
  end.

Definition award_writes (userId : Z) (b : option Badge) : list Write :=
  match b with
  | Some badge => [WCreateUserBadge userId (badge_id badge)]
  | None => []
  end.

(** The store a recorded submission leaves behind, table by table. *)
Definition cascade_store (userId : Z) (scenario : Scenario) (scenarioId : Z)
    (result : SubmitResult) (st : Store) : Store :=
  let lvl := level_id scenario in
  let c := completedThisLevel userId scenario scenarioId result st in
  let current :=
    <[(userId, lvl) := {| unlocked := true; completed := c |}]>
      (user_levels st) in
  {| scenarios := scenarios st;
     scenario_steps := scenario_steps st;
     badges := badges st;
     attempts :=
       <[(userId, scenarioId) :=
           {| score := r_score result; all_correct := r_all_correct result |}]>
         (attempts st);
     user_levels :=
       if c && (lvl <? max_level)
       then <[(userId, lvl + 1) := {| unlocked := true; completed := false |}]>
              current
       else current;
     user_badges :=
       if c
       then user_badges st
              ++ award_rows userId (badge_to_award userId scenario st)
       else user_badges st |}.

(** The writes a recorded submission issues, in order. *)
Definition cascade_writes (userId : Z) (scenario : Scenario) (scenarioId : Z)
    (result : SubmitResult) (st : Store) : list Write :=
  let lvl := level_id scenario in
  let c := completedThisLevel userId scenario scenarioId result st in
  WUpsertBestScore userId scenarioId (r_score result) (r_all_correct result)
  :: WUpsertProgress userId lvl true c
  :: (if c
      then unlock_writes userId scenario
             ++ award_writes userId (badge_to_award userId scenario st)
      else []).

(** The [level_progress] and [awarded_badge] a recorded submission
    reports. *)
Definition cascade_progress (userId : Z) (scenario : Scenario)
    (scenarioId : Z) (result : SubmitResult) (st : Store) : LevelProgress :=
  let lvl := level_id scenario in
  let st1 := after_best_score userId scenarioId result st in
  if completedThisLevel userId scenario scenarioId result st
  then LevelCompleted lvl (lvl + 1)
  else LevelIncomplete lvl
         (Repo.countPerfectByUserInLevel userId lvl st1)
         (Repo.countByLevel lvl st1).

Definition cascade_award (userId : Z) (scenario : Scenario)
    (scenarioId : Z) (result : SubmitResult) (st : Store)
    : option AwardedBadge :=
  if completedThisLevel userId scenario scenarioId result st
  then awarded_of <$> badge_to_award userId scenario st
  else None.

(** The number of UserBadge rows of a (user, badge) pair. *)
Definition count_user_badge (user badge : Z) (rows : list UserBadge) : nat :=
  length (List.filter (Repo.is_user_badge user badge) rows).

(** A sequence of submissions handled one after the other. *)
Fixpoint submit_all (reqs : list Request) (st : Store) : Store :=
  match reqs with
  | [] => st
  | req :: rest => submit_all rest (store_of (submit req st))
  end.

(** The guest allowance read at the endpoint, in the specification's
    words: a submission that carries no credentials is still graded, its
    response carries the computed score and neither [level_progress] nor
    [awarded_badge], and nothing is written. *)
Definition guest_submissions_are_graded : Prop :=
  forall (verifyAccess : string -> option JwtPayload) (h : HttpRequest)
         (st : Store) (scenario : Scenario) (answers : list answer),
    authorization h = None ->
    http_userAnswers h = VArr answers ->
    Repo.findById (http_params_id h) st = Some scenario ->
    Repo.findByScenario (http_params_id h) st <> [] ->
    exists r,
      post_submit verifyAccess h st = (json 200 (Result r), st, []) /\
      r_score r =
        round_percent
          (GradingSpec.correct_count
             (sort_steps (Repo.findByScenario (http_params_id h) st)) answers)
          (length (Repo.findByScenario (http_params_id h) st)) /\
      level_progress r = None /\
      awarded_badge r = None.

(** ** Sample data *)

Module Demo.

Definition step (i scen ord : Z) (marker : string) : ScenarioStep :=
  {| step_id := i; step_scenario_id := scen; step_order := ord;
     correct_action := Some marker |}.

Definition fire : Scenario :=
  {| scenario_id := 1; level_id := 1; title := "Warehouse Fire" |}.

Definition drill : Scenario :=
  {| scenario_id := 2; level_id := 6; title := "Evacuation Drill" |}.

(** Scenario 1 (level 1) has four steps stored out of order; scenario 2
    is the only scenario of level 6, the last level. *)
Definition store : Store :=
  {| scenarios :=
       [ fire; drill ];
     scenario_steps :=
       [ step 1 1 3 "C"; step 2 1 1 "A"; step 3 1 4 "D"; step 4 1 2 "B";
         step 5 2 1 "A" ];
     badges :=
       [ {| badge_id := 10; badge_level_id := 1; name := "Level 1";
            description := "Completed level 1"; icon_url := "/badges/1.png" |};
         {| badge_id := 60; badge_level_id := 6; name := "Level 6";
            description := "Completed level 6"; icon_url := "/badges/6.png" |} ];
     attempts := ∅;
     user_levels := ∅;
     user_badges := [] |}.

Definition request (scen : Z) (who : option Z) (picks : list string)
    : Request :=
  {| params_id := scen;
     userAnswers := VArr (map AStr picks);
     user := (fun i => {| uid := i; role := "user" |}) <$> who |}.

(** The store once user 7 holds a perfect attempt at scenario 1. *)
Definition store_with_perfect : Store :=
  Repo.upsertBestScore 7 1 100 true store.

(** A verifier that accepts every token, as user 7. *)
Definition accept_any (token : string) : option JwtPayload :=
  Some {| sub := 7; payload_role := "user" |}.

(** A verifier for a token whose payload has no usable subject. *)
Definition accept_anonymous (token : string) : option JwtPayload :=
  Some {| sub := 0; payload_role := "user" |}.

Definition http_request (header : option string) (scen : Z)
    (picks : list string) : HttpRequest :=
  {| authorization := header;
     http_params_id := scen;
     http_userAnswers := VArr (map AStr picks) |}.

End Demo.

(** ** Answer keys *)

(** The answer that repeats a step's own marker. *)
Definition marker_answer (step : ScenarioStep) : answer :=
  match correct_action step with
  | Some marker => AStr marker
  | None => ANull
  end.

(** Every step's own marker, in the order grading reads the steps. *)
Definition answer_key (steps : list ScenarioStep) : list answer :=
  map marker_answer (sort_steps steps).

(** The marker the callback compares with is not empty: some answer can
    match the step. *)
Definition answerable (step : ScenarioStep) : bool :=
  JS.truthy_string (correct_of step).

(** ** Level completion, row by row *)

(** The user holds a perfect attempt at the scenario. *)
Definition holds_perfect (user : Z) (st : Store) (sc : Scenario) : Prop :=
  exists a, attempts st !! (user, scenario_id sc) = Some a /\
            all_correct a = true.

(** The scenario rows of a level. *)
Definition scenarios_of_level (lvl : Z) (st : Store) : list Scenario :=
  List.filter (fun s => level_id s =? lvl) (scenarios st).

(** The attempt rows [countPerfectByUserInLevel] counts. *)
Definition perfect_rows (user lvl : Z) (st : Store)
    : list (Z * Z * Attempt) :=
  List.filter (Repo.perfect_in_level user lvl st) (map_to_list (attempts st)).

(** The scenario an attempt row points to. *)
Definition scenario_of_row (st : Store) (row : Z * Z * Attempt)
    : option Scenario :=
  Repo.findById (snd (fst row)) st.

(** ** Stores that differ in the progress table only *)

(** The store with its UserLevel table replaced. *)
Definition with_progress (m : gmap (Z * Z) UserLevel) (st : Store) : Store :=
  {| scenarios := scenarios st;
     scenario_steps := scenario_steps st;
     badges := badges st;
     attempts := attempts st;
     user_levels := m;
     user_badges := user_badges st |}.

(** Two stores agree on every table but UserLevel. *)
Definition same_but_progress (a b : Store) : Prop :=
  scenarios a = scenarios b /\ scenario_steps a = scenario_steps b /\
  badges a = badges b /\ attempts a = attempts b /\
  user_badges a = user_badges b.

(** ** Header texts *)

(** The text holds no space. *)
Fixpoint no_space (s : string) : bool :=
  match s with
  | EmptyString => true
  | String c s' => negb (Ascii.eqb c " "%char) && no_space s'
  end.

(** [parts.join(' ')], the inverse of [split(' ')]. *)
Fixpoint join_space (parts : list string) : string :=
  match parts with
  | [] => ""
  | [p] => p
  | p :: rest => (p ++ String " "%char (join_space rest))%string
  end.

(** The authorization header reads [Bearer], one space, a non-empty
    token without a space, then nothing or a space followed by anything;
    the token verifies, and [req] is the request with the token's
    subject and role as [req.user]. *)
Definition well_formed_bearer (verifyAccess : string -> option JwtPayload)
    (h : HttpRequest) (req : Request) : Prop :=
  exists token rest payload,
    authorization h = Some ("Bearer " ++ token ++ rest)%string /\
    token <> "" /\ no_space token = true /\
    (rest = "" \/ exists r, rest = String " "%char r) /\
    verifyAccess token = Some payload /\
    req = {| params_id := http_params_id h;
             userAnswers := http_userAnswers h;
             user := Some {| uid := sub payload;
                             role := payload_role payload |} |}.

(** ** Middlewares beside [requireAuth], and the error handler *)

(** A thrown value, as [errorHandler] reads it: an instance of AppError
    (utils/error.js) with its [status] and [message], or any other
    error with its [name], [message], [code] and [sqlMessage]; [None]
    is an undefined property. *)
Inductive Thrown :=
| AppError (status : Z) (message : string)
| OtherError (name message : string) (code sqlMessage : option string).

(** What a middleware or handler does with a request: it answers, it
    calls [next()] with the request as it now is, or an error reaches
    [next(e)] (thrown in a middleware, or caught by a handler's own
    [catch]). *)
Inductive Outcome (A : Type) :=
| Answered (a : A)
| Passed (req : Request)
| Failed (e : Thrown).

Arguments Answered {A} a.
Arguments Passed {A} req.
Arguments Failed {A} e.

(** Reading a property of an undefined value. *)
Definition TypeError_undefined (property : string) : Thrown :=
  OtherError "TypeError"
    ("Cannot read properties of undefined (reading '" ++ property ++ "')")
    None None.

(** [isAdmin]: [req.user.role !== 'admin'] answers 403; with no
    [req.user] the property read throws. *)
Definition isAdmin (req : Request) : Outcome Response :=
  match user req with
  | Some u =>
      if negb (String.eqb (role u) "admin")
      then Answered (json 403 (AuthError "Admin access only"))
      else Passed req
  | None => Failed (TypeError_undefined "role")
  end.

(** The guards of the admin routes, [requireAuth, isAdmin], in the order
    the routers register them. *)
Definition admin_guard (verifyAccess : string -> option JwtPayload)
    (h : HttpRequest) : Outcome Response :=
  match requireAuth verifyAccess h with
  | inl r => Answered r
  | inr req => isAdmin req
  end.

(** The [message] of an error response: a text, or the value found
    under an inherited key of the lookup object. *)
Inductive ErrorMessage :=
| Text (s : string)
| Inherited (key : string).

(** The body [{ error: true, message, details }] with its status;
    [details] is [None] when the property is absent or undefined. *)
Record ErrorResponse := {
  error_status : Z;
  error_message : ErrorMessage;
  error_details : option string
}.

Definition mysqlConnectionErrors : list (string * string) :=
  [ ("ECONNREFUSED", "Database connection was refused");
    ("PROTOCOL_CONNECTION_LOST", "Database connection was lost");
    ("ER_ACCESS_DENIED_ERROR", "Database access denied");
    ("ER_BAD_DB_ERROR", "Database not found") ].

(** The properties every object literal inherits from
    [Object.prototype]; each of them holds a truthy value. *)
Definition Object_prototype_keys : list string :=
  [ "constructor"; "__defineGetter__"; "__defineSetter__";
    "hasOwnProperty"; "__lookupGetter__"; "__lookupSetter__";
    "isPrototypeOf"; "propertyIsEnumerable"; "toString"; "valueOf";
    "__proto__"; "toLocaleString" ].

(** [mysqlConnectionErrors[err.code]]: an own entry, else an inherited
    property, else undefined.  An undefined [code] is looked up as the
    key ["undefined"]. *)
Definition lookup_connection_error (code : option string)
    : option ErrorMessage :=
  let key := default "undefined" code in
  match List.find (fun kv => String.eqb (fst kv) key) mysqlConnectionErrors with
  | Some kv => Some (Text (snd kv))
  | None =>
      if existsb (String.eqb key) Object_prototype_keys
      then Some (Inherited key)
      else None
  end.

(** [err.code === text] *)
Definition code_is (code : option string) (text : string) : bool :=
  match code with
  | Some c => String.eqb c text
  | None => false
  end.

(** [errorHandler]; [NODE_ENV] is [process.env.NODE_ENV]. *)
Definition errorHandler (NODE_ENV : option string) (err : Thrown)
    : ErrorResponse :=
  match err with
  | AppError status message =>
      {| error_status := status; error_message := Text message;
         error_details := None |}
  | OtherError name message code sqlMessage =>
      if String.eqb name "ValidationError" then
        {| error_status := 400; error_message := Text "Validation Error";
           error_details := Some message |}
      else
        match lookup_connection_error code with
        | Some m =>
            {| error_status := 503; error_message := m;
               error_details := None |}
        | None =>
            if code_is code "ER_DUP_ENTRY" then
              {| error_status := 400; error_message := Text "Duplicate entry";
                 error_details := sqlMessage |}
            else if code_is code "ER_NO_REFERENCED_ROW_2" then
              {| error_status := 400;
                 error_message := Text "Foreign key constraint fails";
                 error_details := sqlMessage |}
            else
              {| error_status := 500;
                 error_message := Text "Internal server error";
                 error_details :=
                   if code_is NODE_ENV "development" then Some message
                   else None |}
        end
  end.

(** ** GET /users *)

(** [UserController.list] for an instance whose [userBadgeService]
    property is [userBadgeService] ([None]: undefined).  The list the
    service hands back is answered with status 200. *)
Definition UserController_list {B : Type}
    (userBadgeService : option (Z -> B)) (req : Request)
    : Outcome (Response + B) :=
  match userId_of req with
  | None => Answered (inl (json 401 (Message "Unauthorized")))
  | Some userId =>
      match userBadgeService with
      | Some listUserBadgesByUserId =>
          Answered (inr (listUserBadgesByUserId userId))
      | None => Failed (TypeError_undefined "listUserBadgesByUserId")
      end
  end.

(** [new UserController(service)]: the constructor sets [this.service]
    and nothing else, so [this.userBadgeService] is undefined. *)
Definition new_UserController_userBadgeService {B : Type} : option (Z -> B) :=
  None.

(** [userRoutes.get("/", requireAuth, isAdmin, controller.list)] *)
Definition get_users {B : Type}
    (verifyAccess : string -> option JwtPayload) (h : HttpRequest)
    : Outcome (Response + B) :=
  match admin_guard verifyAccess h with
  | Answered r => Answered (inl r)
  | Passed req =>
      UserController_list (@new_UserController_userBadgeService B) req
  | Failed e => Failed e
  end.

(** The user a progression write is keyed by. *)
Definition write_user (w : Write) : Z :=
  match w with
  | WUpsertBestScore user _ _ _ => user
  | WUpsertProgress user _ _ _ => user
  | WCreateUserBadge user _ => user
  end.

(** ** Stores that agree on one user's rows *)

(** The UserBadge rows of a user. *)
Definition badges_of_user (u : Z) (rows : list UserBadge) : list UserBadge :=
  List.filter (fun r => ub_user_id r =? u) rows.

(** Two stores hold the same content and the same Attempt and UserBadge
    rows for user [u]; the rows of other users, and the progress table,
    may differ. *)
Definition agree_for (u : Z) (a b : Store) : Prop :=
  scenarios a = scenarios b /\ scenario_steps a = scenario_steps b /\
  badges a = badges b /\
  (forall s, attempts a !! (u, s) = attempts b !! (u, s)) /\
  badges_of_user u (user_badges a) = badges_of_user u (user_badges b).

(** * Properties *)

(** Three of four is 75; an exact tie goes up when the product is exact
    (1 of 8 is 12.5, hence 13), but 23 / 40 * 100 evaluates to
    57.49999999999999 in binary64, hence 57. *)
Example round_percent_3_4 : round_percent 3 4 = 75.
Proof. vm_compute. reflexivity. Qed.

Example round_percent_1_8 : round_percent 1 8 = 13.
Proof. vm_compute. reflexivity. Qed.

Example round_percent_23_40 : round_percent 23 40 = 57.
Proof. vm_compute. reflexivity. Qed.

(** ** Case folding *)

Lemma fold_case_toUpperCase_char (c : ascii) :
  GradingSpec.fold_case (JS.toUpperCase_char c) = GradingSpec.fold_case c.
Proof.
  destruct c as [[] [] [] [] [] [] [] []]; vm_compute; reflexivity.
Qed.

Lemma toUpperCase_char_fold_case (c : ascii) :
  JS.toUpperCase_char (GradingSpec.fold_case c) = JS.toUpperCase_char c.
Proof.
  destruct c as [[] [] [] [] [] [] [] []]; vm_compute; reflexivity.
Qed.

Lemma toUpperCase_char_eq_iff (a b : ascii) :
  JS.toUpperCase_char a = JS.toUpperCase_char b <->
  GradingSpec.fold_case a = GradingSpec.fold_case b.
Proof.
  split; intros H.
  - rewrite <- (fold_case_toUpperCase_char a), <- (fold_case_toUpperCase_char b).
    now rewrite H.
  - rewrite <- (toUpperCase_char_fold_case a), <- (toUpperCase_char_fold_case b).
    now rewrite H.
Qed.

Lemma equalsIgnoreCase_toUpperCase (s t : string) :
  GradingSpec.equalsIgnoreCase s t = String.eqb (JS.toUpperCase s) (JS.toUpperCase t).
Proof.
  revert t; induction s as [|a s IH]; intros [|b t]; simpl; try reflexivity.
  rewrite IH. f_equal.
  destruct (Ascii.eqb_spec (GradingSpec.fold_case a) (GradingSpec.fold_case b)) as [E|E];
    destruct (Ascii.eqb_spec (JS.toUpperCase_char a) (JS.toUpperCase_char b))
      as [E'|E']; try reflexivity.
  - exfalso. apply E'. now apply toUpperCase_char_eq_iff.
  - exfalso. apply E. now apply toUpperCase_char_eq_iff.
Qed.

(** ** The callback against the specification's per-step rule *)

Lemma grade_step_spec answers step i n :
  grade_step answers step i n =
  if GradingSpec.answer_correct (nth_error answers i) step then S n else n.
Proof.
  unfold grade_step, picked_at, correct_of, GradingSpec.answer_correct.
  destruct (nth_error answers i) as [[|[|c s]]|]; try reflexivity.
  destruct (correct_action step) as [[|d m]|]; try reflexivity.
  rewrite equalsIgnoreCase_toUpperCase. reflexivity.
Qed.

(** With a non-empty marker the emptiness test on the answer is
    redundant: correctness is the case-insensitive comparison alone. *)
Lemma answer_correct_nonempty_marker s step marker :
  correct_action step = Some marker -> marker <> "" ->
  GradingSpec.answer_correct (Some (AStr s)) step =
  GradingSpec.equalsIgnoreCase s marker.
Proof.
  intros Hm Hne. unfold GradingSpec.answer_correct. rewrite Hm.
  destruct s as [|c s]; [|reflexivity].
  destruct marker; [congruence|reflexivity].
Qed.

Lemma length_filter_map {A B} (f : B -> bool) (g : A -> B) (l : list A) :
  length (List.filter f (map g l)) = length (List.filter (fun x => f (g x)) l).
Proof.
  induction l as [|x l IH]; simpl; [reflexivity|].
  destruct (f (g x)); simpl; now rewrite IH.
Qed.

Lemma length_filter_ext {A} (f g : A -> bool) (l : list A) :
  (forall x, In x l -> f x = g x) ->
  length (List.filter f l) = length (List.filter g l).
Proof.
  induction l as [|x l IH]; intros H; simpl; [reflexivity|].
  rewrite (H x (or_introl eq_refl)).
  destruct (g x); simpl; rewrite IH; auto; intros y Hy; apply H; now right.
Qed.

(** The loop counts the positions [k] whose answer, at index [i + k], is
    correct for the [k]-th step. *)
Lemma forEach_grade_count answers steps : forall i n,
  forEach_grade answers steps i n =
  (n + length
         (List.filter
            (fun k =>
               match nth_error steps k with
               | Some step =>
                   GradingSpec.answer_correct (nth_error answers (i + k)) step
               | None => false
               end)
            (seq 0 (length steps))))%nat.
Proof.
  induction steps as [|step rest IH]; intros i n; simpl.
  - lia.
  - rewrite IH, grade_step_spec, Nat.add_0_r, <- seq_shift.
    assert (E : length
                  (List.filter
                     (fun k =>
                        match nth_error (step :: rest) k with
                        | Some step0 =>
                            GradingSpec.answer_correct
                              (nth_error answers (i + k)) step0
                        | None => false
                        end)
                     (map S (seq 0 (length rest)))) =
                length
                  (List.filter
                     (fun k =>
                        match nth_error rest k with
                        | Some step0 =>
                            GradingSpec.answer_correct
                              (nth_error answers (S i + k)) step0
                        | None => false
                        end)
                     (seq 0 (length rest)))).
    { rewrite length_filter_map. apply length_filter_ext.
      intros x _. simpl. now replace (i + S x)%nat with (S (i + x)) by lia. }
    destruct (GradingSpec.answer_correct (nth_error answers i) step);
      cbn [length]; rewrite E; lia.
Qed.

Lemma count_correct_spec steps answers :
  count_correct steps answers =
  GradingSpec.correct_count (sort_steps steps) answers.
Proof.
  unfold count_correct, GradingSpec.correct_count.
  now rewrite forEach_grade_count.
Qed.

Lemma filter_length_le {A} (f : A -> bool) (l : list A) :
  (length (List.filter f l) <= length l)%nat.
Proof.
  induction l as [|x l IH]; simpl; [lia|]. destruct (f x); simpl; lia.
Qed.

(** ** Sorting *)

Lemma insert_step_perm s l : Permutation (s :: l) (insert_step s l).
Proof.
  induction l as [|h t IH]; simpl.
  - apply Permutation_refl.
  - destruct (step_order s <=? step_order h).
    + apply Permutation_refl.
    + eapply perm_trans; [apply perm_swap|]. now apply perm_skip.
Qed.

Lemma sort_steps_perm steps : Permutation steps (sort_steps steps).
Proof.
  induction steps as [|s l IH]; simpl.
  - apply perm_nil.
  - eapply perm_trans; [apply perm_skip, IH|]. apply insert_step_perm.
Qed.

Lemma sort_steps_length steps : length (sort_steps steps) = length steps.
Proof. symmetry. apply Permutation_length, sort_steps_perm. Qed.

Lemma insert_step_hdrel a s l :
  step_le a s -> HdRel step_le a l -> HdRel step_le a (insert_step s l).
Proof.
  intros Has Hl. destruct l as [|h t]; simpl.
  - now constructor.
  - destruct (step_order s <=? step_order h); constructor; auto.
    now inversion Hl.
Qed.

Lemma insert_step_sorted s l :
  Sorted step_le l -> Sorted step_le (insert_step s l).
Proof.
  induction l as [|h t IH]; intros Hs; simpl.
  - repeat constructor.
  - destruct (Z.leb_spec (step_order s) (step_order h)) as [Hle|Hlt].
    + constructor; [assumption|]. now constructor.
    + inversion Hs as [|? ? Ht Hhd]; subst.
      constructor; [now apply IH|].
      apply insert_step_hdrel; [unfold step_le; lia | assumption].
Qed.

Lemma sort_steps_sorted steps : Sorted step_le (sort_steps steps).
Proof.
  induction steps as [|s l IH]; simpl.
  - constructor.
  - now apply insert_step_sorted.
Qed.

(** The sort is stable: the steps of one [step_order] keep their stored
    order. *)
Lemma insert_step_same_order k s l :
  List.filter (fun x => step_order x =? k) (insert_step s l) =
  List.filter (fun x => step_order x =? k) (s :: l).
Proof.
  induction l as [|h t IH]; [reflexivity|]. simpl insert_step.
  destruct (Z.leb_spec (step_order s) (step_order h)) as [Hle|Hlt];
    [reflexivity|].
  simpl. simpl in IH. rewrite IH.
  destruct (Z.eqb_spec (step_order s) k) as [Es|Es];
    destruct (Z.eqb_spec (step_order h) k) as [Eh|Eh]; try reflexivity.
  lia.
Qed.

Lemma sort_steps_stable k steps :
  List.filter (fun x => step_order x =? k) (sort_steps steps) =
  List.filter (fun x => step_order x =? k) steps.
Proof.
  induction steps as [|s l IH]; [reflexivity|].
  simpl sort_steps. rewrite insert_step_same_order. simpl. now rewrite IH.
Qed.

(** The loop reads the answers only at the indices of the steps. *)
Lemma forEach_grade_answers_ext a a' steps : forall i n,
  (forall k, (k < length steps)%nat ->
             nth_error a (i + k) = nth_error a' (i + k)) ->
  forEach_grade a steps i n = forEach_grade a' steps i n.
Proof.
  intros i n H. rewrite !forEach_grade_count. f_equal.
  apply length_filter_ext. intros k Hk. apply in_seq in Hk.
  destruct (nth_error steps k); [|reflexivity].
  rewrite H by lia. reflexivity.
Qed.

Lemma nth_error_firstn_lt {A} (l : list A) : forall n k,
  (k < n)%nat -> nth_error (firstn n l) k = nth_error l k.
Proof.
  induction l as [|x l IH]; intros [|n] [|k] Hk; simpl; try reflexivity; try lia.
  apply IH. lia.
Qed.

(** ** Binary64: the rounded percentage never exceeds 100

    The bounds below follow the operations of the standard library's
    specification of binary64 ([SpecFloat]), to which the primitive
    operations are tied by the library's float axioms.  The only fact
    needed about rounding is one-sided: a value at most [B], with [B] a
    small integer, is rounded to a value at most [B]. *)

Lemma digits2_pos_size p : digits2_pos p = Pos.size p.
Proof. induction p; simpl; congruence. Qed.

Lemma Zdigits2_pos_bounds p :
  2 ^ (Zdigits2 (Zpos p) - 1) <= Zpos p < 2 ^ Zdigits2 (Zpos p).
Proof.
  unfold Zdigits2. rewrite digits2_pos_size.
  assert (Hgt : Zpos p < 2 ^ Zpos (Pos.size p)).
  { change 2 with (Zpos 2). rewrite <- Pos2Z.inj_pow.
    apply Pos2Z.pos_lt_pos, Pos.size_gt. }
  assert (Hle : 2 ^ Zpos (Pos.size p) <= 2 * Zpos p).
  { change (2 * Zpos p) with (Zpos p~0). change 2 with (Zpos 2).
    rewrite <- Pos2Z.inj_pow. apply Pos2Z.pos_le_pos, Pos.size_le. }
  split; [|exact Hgt].
  assert (E : 2 ^ Zpos (Pos.size p) = 2 * 2 ^ (Zpos (Pos.size p) - 1)).
  { rewrite <- Z.pow_succ_r by lia. f_equal. lia. }
  lia.
Qed.

Lemma Zdigits2_le_of_lt p d : 0 <= d -> Zpos p < 2 ^ d -> Zdigits2 (Zpos p) <= d.
Proof.
  intros Hd H. destruct (Zdigits2_pos_bounds p) as [Hlo _].
  destruct (Z.le_gt_cases (Zdigits2 (Zpos p)) d) as [|Hgt]; [assumption|].
  exfalso.
  assert (2 ^ d <= 2 ^ (Zdigits2 (Zpos p) - 1)) by (apply Z.pow_le_mono_r; lia).
  lia.
Qed.

Lemma shr_1_m mrs : 0 <= shr_m mrs -> shr_m (shr_1 mrs) = shr_m mrs / 2.
Proof.
  destruct mrs as [m r s]. simpl. intros Hm.
  destruct m as [|[p|p|]|p]; simpl; try lia; try reflexivity.
  - rewrite (Pos2Z.inj_xI p). apply Z.div_unique with 1; lia.
  - rewrite (Pos2Z.inj_xO p). apply Z.div_unique with 0; lia.
Qed.

Lemma pow2_xO p : 2 ^ Zpos p~0 = 2 ^ Zpos p * 2 ^ Zpos p.
Proof.
  rewrite (Pos2Z.inj_xO p). replace (2 * Zpos p) with (Zpos p + Zpos p) by lia.
  apply Z.pow_add_r; lia.
Qed.

Lemma pow2_xI p : 2 ^ Zpos p~1 = 2 * (2 ^ Zpos p * 2 ^ Zpos p).
Proof.
  rewrite (Pos2Z.inj_xI p).
  replace (2 * Zpos p + 1) with (1 + (Zpos p + Zpos p)) by lia.
  rewrite Z.pow_add_r, Z.pow_add_r, Z.pow_1_r by lia. reflexivity.
Qed.

(** Shifting a record right [p] times divides its mantissa by [2^p]. *)
Lemma iter_pos_shr_m p : forall mrs,
  0 <= shr_m mrs ->
  shr_m (SpecFloat.iter_pos shr_1 p mrs) = shr_m mrs / 2 ^ Zpos p.
Proof.
  assert (Hpow : forall q, 0 < 2 ^ Zpos q) by (intros; apply Z.pow_pos_nonneg; lia).
  induction p as [p IH|p IH|]; intros mrs Hm; simpl SpecFloat.iter_pos.
  - assert (H1 : 0 <= shr_m (shr_1 mrs))
      by (rewrite shr_1_m by assumption; apply Z.div_pos; lia).
    assert (H2 : 0 <= shr_m (SpecFloat.iter_pos shr_1 p (shr_1 mrs)))
      by (rewrite IH by assumption; apply Z.div_pos; auto).
    rewrite IH, IH, shr_1_m by assumption.
    pose proof (Hpow p).
    rewrite !Z.div_div by lia. f_equal.
    rewrite pow2_xI. lia.
  - assert (H2 : 0 <= shr_m (SpecFloat.iter_pos shr_1 p mrs))
      by (rewrite IH by assumption; apply Z.div_pos; auto).
    rewrite IH, IH by assumption.
    pose proof (Hpow p).
    rewrite !Z.div_div by lia. f_equal.
    rewrite pow2_xO. lia.
  - rewrite shr_1_m by assumption. reflexivity.
Qed.

Lemma shr_1_exact mrs :
  exact_rec mrs -> 0 <= shr_m mrs -> (exists k, shr_m mrs = 2 * k) ->
  exact_rec (shr_1 mrs).
Proof.
  destruct mrs as [m r s]. unfold exact_rec. cbn [shr_m shr_r shr_s].
  intros [-> ->] Hm [k Hk].
  destruct m as [|[p|p|]|p]; cbn; auto; lia.
Qed.

(** Shifting out zero bits only leaves the round and sticky bits clear. *)
Lemma iter_pos_exact p : forall mrs,
  exact_rec mrs -> 0 <= shr_m mrs ->
  (exists k, shr_m mrs = 2 ^ Zpos p * k) ->
  exact_rec (SpecFloat.iter_pos shr_1 p mrs).
Proof.
  assert (Hpow : forall q, 0 < 2 ^ Zpos q)
    by (intros; apply Z.pow_pos_nonneg; lia).
  induction p as [p IH|p IH|]; intros mrs Hex Hm [k Hk]; simpl SpecFloat.iter_pos.
  - rewrite pow2_xI in Hk. pose proof (Hpow p).
    assert (H1 : exact_rec (shr_1 mrs)).
    { apply shr_1_exact; auto. exists (2 ^ Zpos p * 2 ^ Zpos p * k). lia. }
    assert (E1 : shr_m (shr_1 mrs) = 2 ^ Zpos p * (2 ^ Zpos p * k)).
    { rewrite shr_1_m by assumption. rewrite Hk.
      symmetry. apply Z.div_unique with 0; lia. }
    assert (H1m : 0 <= shr_m (shr_1 mrs))
      by (rewrite shr_1_m by assumption; apply Z.div_pos; lia).
    assert (H2 : exact_rec (SpecFloat.iter_pos shr_1 p (shr_1 mrs))).
    { apply IH; auto. eauto. }
    assert (E2 : shr_m (SpecFloat.iter_pos shr_1 p (shr_1 mrs)) = 2 ^ Zpos p * k).
    { rewrite iter_pos_shr_m by assumption. rewrite E1.
      symmetry. apply Z.div_unique with 0; lia. }
    apply IH; auto.
    + rewrite E2. nia.
    + eauto.
  - rewrite pow2_xO in Hk. pose proof (Hpow p).
    assert (H2 : exact_rec (SpecFloat.iter_pos shr_1 p mrs)).
    { apply IH; auto. exists (2 ^ Zpos p * k). lia. }
    assert (E2 : shr_m (SpecFloat.iter_pos shr_1 p mrs) = 2 ^ Zpos p * k).
    { rewrite iter_pos_shr_m by assumption. rewrite Hk.
      symmetry. apply Z.div_unique with 0; lia. }
    apply IH; auto.
    + rewrite E2. nia.
    + eauto.
  - apply shr_1_exact; auto. exists k. rewrite Hk. reflexivity.
Qed.

Lemma loc_of_exact mrs : exact_rec mrs -> loc_of_shr_record mrs = loc_Exact.
Proof. destruct mrs as [m r s]. intros [H1 H2]. simpl in *. now subst. Qed.

Lemma loc_of_rec_of_loc m l :
  loc_of_shr_record (shr_record_of_loc m l) = l.
Proof. destruct l as [|[| |]]; reflexivity. Qed.

Lemma shr_m_rec_of_loc m l : shr_m (shr_record_of_loc m l) = m.
Proof. destruct l as [|[| |]]; reflexivity. Qed.

Lemma round_nearest_even_le m l bound :
  0 <= m -> (m < bound \/ (l = loc_Exact /\ m <= bound)) ->
  0 <= round_nearest_even m l <= bound.
Proof.
  intros Hm [H|[-> H]]; [|simpl; lia].
  destruct l as [|[| |]]; simpl; try lia.
  destruct (Z.even m); lia.
Qed.

Lemma fexp_le_0 x : x <= 53 -> fexp prec emax x <= 0.
Proof. unfold fexp, emin, prec, emax. lia. Qed.

Lemma digits_of_bound m e B :
  0 <= m -> 0 < B < 2 ^ 53 -> e <= 0 -> m <= B * 2 ^ (- e) ->
  Zdigits2 m + e <= 53.
Proof.
  intros Hm HB He Hle. destruct m as [|p|p]; [simpl; lia| |lia].
  assert (H2 : 0 < 2 ^ (- e)) by (apply Z.pow_pos_nonneg; lia).
  assert (Hlt : Zpos p < 2 ^ (53 - e)).
  { replace (53 - e) with (53 + - e) by lia. rewrite Z.pow_add_r by lia. nia. }
  pose proof (Zdigits2_le_of_lt p (53 - e) ltac:(lia) Hlt). lia.
Qed.

(** One alignment step keeps a value that is at most [B] at most [B];
    if the value is not below [B] the step is exact. *)
Lemma shr_fexp_le m e l B :
  0 <= m -> 0 < B < 2 ^ 53 -> e <= 0 ->
  (m < B * 2 ^ (- e) \/ (l = loc_Exact /\ m <= B * 2 ^ (- e))) ->
  let '(mrs, e') := shr_fexp prec emax m e l in
  0 <= shr_m mrs /\ e' <= 0 /\
  (shr_m mrs < B * 2 ^ (- e') \/
   (loc_of_shr_record mrs = loc_Exact /\ shr_m mrs <= B * 2 ^ (- e'))).
Proof.
  intros Hm HB He Hcond.
  assert (Hle : m <= B * 2 ^ (- e)) by (destruct Hcond as [?|[_ ?]]; lia).
  pose proof (fexp_le_0 _ (digits_of_bound m e B Hm HB He Hle)) as Hf.
  unfold shr_fexp, shr.
  destruct (fexp prec emax (Zdigits2 m + e) - e) as [|p|p] eqn:En.
  - rewrite shr_m_rec_of_loc, loc_of_rec_of_loc. auto.
  - assert (Hp : 0 < 2 ^ Zpos p) by (apply Z.pow_pos_nonneg; lia).
    assert (He' : e + Zpos p <= 0) by lia.
    assert (Hsplit : 2 ^ (- e) = 2 ^ Zpos p * 2 ^ (- (e + Zpos p))).
    { rewrite <- Z.pow_add_r by lia. f_equal. lia. }
    assert (H2 : 0 < 2 ^ (- (e + Zpos p))) by (apply Z.pow_pos_nonneg; lia).
    rewrite iter_pos_shr_m by (rewrite shr_m_rec_of_loc; assumption).
    rewrite shr_m_rec_of_loc.
    split; [apply Z.div_pos; lia|]. split; [assumption|].
    destruct (Z.lt_ge_cases m (B * 2 ^ (- e))) as [Hlt|Hge].
    + left. apply Z.div_lt_upper_bound; [assumption|]. nia.
    + right. destruct Hcond as [?|[-> _]]; [lia|].
      assert (Em : m = 2 ^ Zpos p * (B * 2 ^ (- (e + Zpos p)))) by nia.
      split.
      * apply loc_of_exact, iter_pos_exact.
        -- split; reflexivity.
        -- simpl. assumption.
        -- simpl. eauto.
      * rewrite Em at 1. rewrite Z.mul_comm, Z.div_mul by lia. lia.
  - rewrite shr_m_rec_of_loc, loc_of_rec_of_loc. auto.
Qed.

(** Rounding to nearest even never takes a value that is at most [B]
    above [B], for an integer [B] below [2^53]. *)
Lemma binary_round_aux_le mx ex lx B :
  0 <= mx -> 0 < B < 2 ^ 53 -> ex <= 0 ->
  (mx < B * 2 ^ (- ex) \/ (lx = loc_Exact /\ mx <= B * 2 ^ (- ex))) ->
  match binary_round_aux prec emax false mx ex lx with
  | S754_zero false => True
  | S754_finite false m e => e <= 0 /\ Zpos m <= B * 2 ^ (- e)
  | _ => False
  end.
Proof.
  intros Hm HB He Hcond. unfold binary_round_aux.
  pose proof (shr_fexp_le mx ex lx B Hm HB He Hcond) as H1.
  destruct (shr_fexp prec emax mx ex lx) as [mrs' e'].
  destruct H1 as (Hm' & He' & Hc').
  pose proof (round_nearest_even_le _ _ _ Hm' Hc') as Hr.
  set (m1 := round_nearest_even (shr_m mrs') (loc_of_shr_record mrs')) in *.
  pose proof (shr_fexp_le m1 e' loc_Exact B ltac:(lia) HB He'
                ltac:(right; split; [reflexivity|lia])) as H2.
  destruct (shr_fexp prec emax m1 e' loc_Exact) as [mrs'' e''].
  destruct H2 as (Hm'' & He'' & Hc'').
  destruct (shr_m mrs'') as [|m|m] eqn:Em.
  - exact I.
  - replace (e'' <=? emax - prec) with true
      by (symmetry; apply Z.leb_le; unfold emax, prec; lia).
    split; [assumption|]. destruct Hc'' as [?|[_ ?]]; lia.
  - lia.
Qed.

Lemma iter_xO_value k : forall p,
  Zpos (Pos.iter xO p k) = Zpos p * 2 ^ Zpos k.
Proof.
  induction k as [|k IH] using Pos.peano_ind; intros p.
  - simpl. lia.
  - rewrite Pos.iter_succ, Pos2Z.inj_xO, IH, Pos2Z.inj_succ, Z.pow_succ_r by lia.
    lia.
Qed.

Lemma iter_xO_digits k : forall p,
  digits2_pos (Pos.iter xO p k) = (digits2_pos p + k)%positive.
Proof.
  induction k as [|k IH] using Pos.peano_ind; intros p.
  - simpl. lia.
  - rewrite Pos.iter_succ. simpl. rewrite IH. lia.
Qed.

(** A 53-bit mantissa is already in format: rounding leaves it alone. *)
Lemma binary_round_aux_exact mz ez :
  Zdigits2 (Zpos mz) = 53 -> -1074 <= ez <= 971 ->
  binary_round_aux prec emax false (Zpos mz) ez loc_Exact =
  S754_finite false mz ez.
Proof.
  intros Hd He. unfold binary_round_aux, shr_fexp.
  rewrite Hd.
  assert (E : fexp prec emax (53 + ez) - ez = 0)
    by (unfold fexp, emin, prec, emax; lia).
  rewrite E. simpl shr. cbn [shr_m round_nearest_even loc_of_shr_record].
  rewrite Hd, E. simpl shr. cbn [shr_m].
  replace (ez <=? emax - prec) with true
    by (symmetry; apply Z.leb_le; unfold emax, prec; lia).
  reflexivity.
Qed.

Lemma Number_zero : Prim2SF (JS.Number 0) = S754_zero false.
Proof. vm_compute. reflexivity. Qed.

(** A positive integer below [2^53] is converted exactly, to a 53-bit
    mantissa. *)
Lemma Number_spec n :
  0 < n < 2 ^ 53 ->
  exists m e,
    Prim2SF (JS.Number n) = S754_finite false m e /\
    -52 <= e <= 0 /\ Zpos m = n * 2 ^ (- e) /\ Zdigits2 (Zpos m) = 53.
Proof.
  intros Hn. unfold JS.Number. rewrite FloatAxioms.of_uint63_spec, Uint63.of_Z_spec.
  rewrite Z.mod_small
    by (split; [lia|]; apply Z.lt_trans with (2 ^ 53); [lia|reflexivity]).
  destruct n as [|p|p]; try lia.
  unfold binary_normalize, binary_round, shl_align.
  pose proof (Zdigits2_le_of_lt p 53 ltac:(lia) ltac:(lia)) as Hd.
  pose proof (Zdigits2_pos_bounds p) as Hb.
  unfold Zdigits2 in Hd, Hb.
  set (d := digits2_pos p) in *.
  assert (Ef : fexp prec emax (Zpos d + 0) = Zpos d - 53)
    by (unfold fexp, emin, prec, emax; lia).
  rewrite Ef.
  destruct (Zpos d - 53 - 0) as [|k|k] eqn:Ek; try lia.
  - assert (E53 : Zpos d = 53) by lia.
    exists p, 0.
    rewrite binary_round_aux_exact by (unfold Zdigits2; fold d; lia).
    unfold Zdigits2. fold d. repeat split; lia.
  - exists (Pos.iter xO p k), (Zpos d - 53).
    rewrite binary_round_aux_exact.
    + split; [reflexivity|]. split; [lia|]. split.
      * rewrite iter_xO_value. f_equal. f_equal. lia.
      * unfold Zdigits2. rewrite iter_xO_digits. fold d. lia.
    + unfold Zdigits2. rewrite iter_xO_digits. fold d. lia.
    + lia.
Qed.

Lemma new_location_0 n : new_location n 0 = loc_Exact.
Proof.
  unfold new_location, new_location_even, new_location_odd.
  destruct (Z.even n); reflexivity.
Qed.

(** [c / t] with [c <= t] is at most 1. *)
Lemma SFdiv_at_most_1 mc ec mt et c t :
  0 < c <= t ->
  -52 <= ec <= 0 -> Zpos mc = c * 2 ^ (- ec) -> Zdigits2 (Zpos mc) = 53 ->
  -52 <= et <= 0 -> Zpos mt = t * 2 ^ (- et) -> Zdigits2 (Zpos mt) = 53 ->
  (c = t -> mc = mt /\ ec = et) ->
  at_most 1 (SFdiv prec emax (S754_finite false mc ec) (S754_finite false mt et)).
Proof.
  intros Hct Hec Hmc Hdc Het Hmt Hdt Hsame.
  unfold SFdiv, SFdiv_core_binary. rewrite Hdc, Hdt.
  assert (Ee : Z.min (fexp prec emax (53 + ec - (53 + et))) (ec - et)
               = ec - et - 53)
    by (unfold fexp, emin, prec, emax; lia).
  rewrite Ee.
  replace (ec - et - (ec - et - 53)) with 53 by lia.
  rewrite Z.shiftl_mul_pow2 by lia.
  pose proof (Z_div_mod (Zpos mc * 2 ^ 53) (Zpos mt) ltac:(lia)) as Hdiv.
  destruct (Z.div_eucl (Zpos mc * 2 ^ 53) (Zpos mt)) as [q r].
  destruct Hdiv as [Hq Hr].
  assert (Hc2 : 0 < 2 ^ (- ec)) by (apply Z.pow_pos_nonneg; lia).
  assert (Ht2 : 0 < 2 ^ (- et)) by (apply Z.pow_pos_nonneg; lia).
  assert (Hq0 : 0 <= q) by nia.
  assert (Hpow : 2 ^ (- (ec - et - 53)) * 2 ^ (- et) = 2 ^ 53 * 2 ^ (- ec)).
  { rewrite <- !Z.pow_add_r by lia. f_equal. lia. }
  assert (Hp3 : 0 < 2 ^ (- (ec - et - 53))) by (apply Z.pow_pos_nonneg; lia).
  fold (at_most 1 (binary_round_aux prec emax false q (ec - et - 53)
                   (new_location (Zpos mt) r))).
  apply binary_round_aux_le; try lia.
  destruct (Z.eq_dec c t) as [Heq|Hne].
  - destruct (Hsame Heq) as [<- <-]. right.
    assert (Eq : q = 2 ^ 53).
    { generalize dependent (2 ^ 53). intros P. intros.
      destruct (Z.lt_trichotomy q P) as [Hlt|[Heq'|Hgt]]; [|assumption|]; nia. }
    assert (Er : r = 0) by (rewrite Eq in Hq; lia).
    subst q r.
    split; [apply new_location_0|].
    replace (- (ec - ec - 53)) with 53 by lia. lia.
  - left. assert (c < t) by lia.
    assert (Zpos mt * q < Zpos mt * (1 * 2 ^ (- (ec - et - 53)))); [|nia].
    rewrite Hmt at 2. nia.
Qed.

Lemma Number_100 :
  Prim2SF (JS.Number 100) = S754_finite false 7036874417766400 (-46).
Proof. vm_compute. reflexivity. Qed.

(** A value at most 1, times 100, is at most 100. *)
Lemma SFmul_at_most_100 x :
  at_most 1 x ->
  at_most 100 (SFmul prec emax x (S754_finite false 7036874417766400 (-46))).
Proof.
  destruct x as [[|]| | |[|] m e]; cbn [at_most]; try contradiction.
  - intros _. exact I.
  - intros [He Hm]. unfold SFmul. cbn [xorb].
    apply binary_round_aux_le; try lia.
    right. split; [reflexivity|].
    rewrite Pos2Z.inj_mul.
    replace (- (e + -46)) with (- e + 46) by lia.
    rewrite Z.pow_add_r by lia.
    change (Zpos 7036874417766400) with (100 * 2 ^ 46).
    replace (100 * (2 ^ (- e) * 2 ^ 46))
      with (1 * 2 ^ (- e) * (100 * 2 ^ 46)) by ring.
    apply Z.mul_le_mono_nonneg_r; [|assumption].
    apply Z.mul_nonneg_nonneg; [lia|]. apply Z.pow_nonneg. lia.
Qed.

Lemma Math_round_at_most_100 p :
  at_most 100 (Prim2SF p) -> 0 <= JS.Math_round p <= 100.
Proof.
  unfold JS.Math_round. destruct (Prim2SF p) as [[|]| | |[|] m e];
    cbn [at_most]; try contradiction; try lia.
  intros [He Hm].
  destruct (Z.leb_spec 0 e) as [H0|Hneg].
  - assert (e = 0) by lia. subst e. rewrite Z.shiftl_0_r.
    change (- 0) with 0 in Hm. rewrite Z.pow_0_r in Hm. lia.
  - rewrite Z.shiftr_div_pow2, !Z.shiftl_mul_pow2 by lia.
    assert (Hp : 0 < 2 ^ (- e)) by (apply Z.pow_pos_nonneg; lia).
    assert (E : 2 ^ (1 - e) = 2 * 2 ^ (- e)).
    { replace (1 - e) with (Z.succ (- e)) by lia.
      apply Z.pow_succ_r. lia. }
    rewrite E, Z.pow_1_r. split.
    + apply Z.div_pos; lia.
    + apply Z.lt_succ_r, Z.div_lt_upper_bound; lia.
Qed.

(** [Math.round((c / t) * 100)] lies in 0..100 whenever [0 <= c <= t]
    and [t] is a positive integer below [2^53]. *)
Lemma Math_round_percent_range (c t : Z) :
  0 <= c <= t -> 0 < t < 2 ^ 53 ->
  0 <= JS.Math_round (PrimFloat.mul (PrimFloat.div (JS.Number c) (JS.Number t))
                                 (JS.Number 100)) <= 100.
Proof.
  intros Hc Ht. apply Math_round_at_most_100.
  rewrite FloatAxioms.mul_spec, FloatAxioms.div_spec, Number_100.
  apply SFmul_at_most_100.
  destruct (Number_spec t Ht) as (mt & et & Et & Het & Hmt & Hdt).
  rewrite Et.
  destruct (Z.eq_dec c 0) as [->|Hc0].
  - rewrite Number_zero. exact I.
  - destruct (Number_spec c ltac:(lia)) as (mc & ec & Ec & Hec & Hmc & Hdc).
    rewrite Ec.
    apply (SFdiv_at_most_1 mc ec mt et c t); try assumption; try lia.
    intros ->. rewrite Ec in Et. injection Et as -> ->. auto.
Qed.

Lemma round_percent_range (c t : nat) :
  (c <= t)%nat -> (1 <= t)%nat -> Z.of_nat t < 2 ^ 53 ->
  0 <= round_percent c t <= 100.
Proof.
  intros Hc Ht Hsize. unfold round_percent.
  apply Math_round_percent_range; lia.
Qed.

(** ** The rounded percentage on the checked step counts *)

Lemma percent_ok_upto_spec (N : nat) :
  percent_ok_upto N = true ->
  forall t c, (1 <= t <= N)%nat -> (c <= t)%nat -> percent_ok c t = true.
Proof.
  unfold percent_ok_upto. intros H t c Ht Hc.
  rewrite forallb_forall in H.
  assert (Ht' : forallb (fun c => percent_ok c t) (seq 0 (S t)) = true)
    by (apply H, in_seq; lia).
  rewrite forallb_forall in Ht'. apply Ht', in_seq. lia.
Qed.

Lemma percent_ok_checked : percent_ok_upto checked_steps = true.
Proof. vm_compute. reflexivity. Qed.

Lemma round_percent_closest (c t : nat) :
  (1 <= t <= checked_steps)%nat -> (c <= t)%nat ->
  GradingSpec.closest_percent (round_percent c t) c t.
Proof.
  intros Ht Hc.
  pose proof (percent_ok_upto_spec checked_steps percent_ok_checked t c Ht Hc)
    as Hok.
  unfold percent_ok in Hok. apply Z.leb_le in Hok. exact Hok.
Qed.

(** ** The handler, case by case *)

Lemma submit_not_array req st :
  Array_isArray (userAnswers req) = false ->
  submit req st = (json 400 (Message "userAnswers must be an array."), st, []).
Proof.
  intros H. unfold submit. rewrite H, orb_true_r. reflexivity.
Qed.

Lemma submit_no_scenario req st :
  Array_isArray (userAnswers req) = true ->
  Repo.findById (params_id req) st = None ->
  submit req st = (json 404 (Message "Scenario not found"), st, []).
Proof.
  intros H Hs. unfold submit.
  destruct (userAnswers req); try discriminate. simpl.
  unfold bind, getScenario, reads. rewrite Hs. reflexivity.
Qed.

Lemma submit_no_steps req st scenario :
  Array_isArray (userAnswers req) = true ->
  Repo.findById (params_id req) st = Some scenario ->
  Repo.findByScenario (params_id req) st = [] ->
  submit req st =
  (json 404 (Message "No steps found for this scenario."), st, []).
Proof.
  intros H Hs Hsteps. unfold submit.
  destruct (userAnswers req); try discriminate. simpl.
  unfold bind, getScenario, getStepsByScenario, reads.
  rewrite Hs, Hsteps. reflexivity.
Qed.

Lemma submit_graded req st scenario answers :
  userAnswers req = VArr answers ->
  Repo.findById (params_id req) st = Some scenario ->
  Repo.findByScenario (params_id req) st <> [] ->
  submit req st =
  let result :=
    grade scenario (params_id req)
          (Repo.findByScenario (params_id req) st) answers in
  match userId_of req with
  | Some userId =>
      let r := recordSubmission userId scenario (params_id req) result st in
      (json 200 (Result (result_of r)), store_of r, writes_of r)
  | None => (json 200 (Result result), st, [])
  end.
Proof.
  intros Ha Hs Hsteps. unfold submit. rewrite Ha. simpl.
  unfold bind at 1. unfold getScenario at 1, reads at 1. rewrite Hs.
  unfold bind at 1. unfold getStepsByScenario, reads.
  destruct (Repo.findByScenario (params_id req) st) as [|s0 l] eqn:E;
    [congruence|].
  simpl length. simpl Nat.eqb.
  destruct (userId_of req) as [u|]; [|reflexivity].
  unfold bind, ret, result_of, store_of, writes_of. simpl.
  match goal with
  | |- context [recordSubmission ?a ?b ?c ?d ?e] =>
      destruct (recordSubmission a b c d e) as [[r st'] w]
  end.
  simpl. rewrite ?app_nil_r. reflexivity.
Qed.

(** ** The cascade, step by step *)

Lemma award_badge_run userId scenario result st :
  award_badge userId scenario result st =
  match Repo.findByLevel (level_id scenario) st with
  | Some badge =>
      match Repo.findByUserAndBadge userId (badge_id badge) st with
      | None =>
          (set_awarded_badge (awarded_of badge) result,
           Repo.create userId (badge_id badge) st,
           [WCreateUserBadge userId (badge_id badge)])
      | Some _ => (result, st, [])
      end
  | None => (result, st, [])
  end.
Proof.
  unfold award_badge, bind, reads, ret, createUserBadge, writes.
  destruct (Repo.findByLevel (level_id scenario) st) as [b|]; [|reflexivity].
  destruct (Repo.findByUserAndBadge userId (badge_id b) st); reflexivity.
Qed.

Lemma after_level_upsert_run userId scenario c p t result st :
  after_level_upsert userId scenario c p t result st =
  if c then
    let r := award_badge userId scenario
               (set_level_progress
                  (LevelCompleted (level_id scenario) (level_id scenario + 1))
                  result)
               (after_unlock userId scenario st) in
    (result_of r, store_of r, unlock_writes userId scenario ++ writes_of r)
  else
    (set_level_progress (LevelIncomplete (level_id scenario) p t) result,
     st, []).
Proof.
  unfold after_level_upsert, after_unlock, unlock_writes.
  destruct c; [|reflexivity].
  unfold bind, upsertProgress, writes, ret, result_of, store_of, writes_of.
  destruct (level_id scenario <? max_level);
    match goal with
    | |- context [award_badge ?a ?b ?c ?d] =>
        destruct (award_badge a b c d) as [[r st'] w]
    end; reflexivity.
Qed.

Lemma recordSubmission_run userId scenario scenarioId result st :
  recordSubmission userId scenario scenarioId result st =
  let st1 := after_best_score userId scenarioId result st in
  let lvl := level_id scenario in
  let c := completed_flag userId lvl st1 in
  let st2 := Repo.upsertProgress userId lvl true c st1 in
  let r := after_level_upsert userId scenario c
             (Repo.countPerfectByUserInLevel userId lvl st1)
             (Repo.countByLevel lvl st1) result st2 in
  (set_updated_scenario (Repo.findById scenarioId (store_of r)) (result_of r),
   store_of r,
   WUpsertBestScore userId scenarioId (r_score result) (r_all_correct result)
   :: WUpsertProgress userId lvl true c :: writes_of r).
Proof.
  unfold recordSubmission, bind, upsertBestScore, upsertProgress, writes,
    reads, ret, getScenario, result_of, store_of, writes_of,
    after_best_score, completed_flag.
  simpl.
  match goal with
  | |- context [after_level_upsert ?a ?b ?c ?d ?e ?f ?g] =>
      destruct (after_level_upsert a b c d e f g) as [[r st'] w]
  end.
  simpl. rewrite ?app_nil_r. reflexivity.
Qed.

(** ** Grading *)

Lemma correct_count_le sorted answers :
  (GradingSpec.correct_count sorted answers <= length sorted)%nat.
Proof.
  unfold GradingSpec.correct_count.
  etransitivity; [apply filter_length_le|]. now rewrite length_seq.
Qed.

(** C6: grading sorts the stored steps by [step_order] ascending (the
    sorted list is ordered and is a rearrangement of the stored one),
    then counts the positions [i] at which the answer at index [i] is
    correct for the step at sorted position [i]; answers past the step
    count do not matter, and a missing, null or empty answer never
    counts.  Every function involved is total, so nothing is raised. *)
Theorem grading_sorts_then_aligns
    (steps : list ScenarioStep) (answers : list answer) :
  let sorted := sort_steps steps in
  Sorted step_le sorted /\
  Permutation steps sorted /\
  count_correct steps answers =
    length
      (List.filter
         (fun i =>
            match nth_error sorted i with
            | Some step => GradingSpec.answer_correct (nth_error answers i) step
            | None => false
            end)
         (seq 0 (length sorted))) /\
  count_correct steps (firstn (length steps) answers) =
    count_correct steps answers /\
  (forall extra,
      (length steps <= length answers)%nat ->
      count_correct steps (answers ++ extra) = count_correct steps answers) /\
  (forall i step n,
      nth_error answers i = None \/
      nth_error answers i = Some ANull \/
      nth_error answers i = Some (AStr "") ->
      grade_step answers step i n = n).
Proof.
  cbv zeta. repeat split.
  - apply sort_steps_sorted.
  - apply sort_steps_perm.
  - apply count_correct_spec.
  - unfold count_correct. apply forEach_grade_answers_ext.
    intros k Hk. rewrite sort_steps_length in Hk. simpl.
    now apply nth_error_firstn_lt.
  - intros extra Hlen. unfold count_correct.
    apply forEach_grade_answers_ext.
    intros k Hk. rewrite sort_steps_length in Hk. simpl.
    apply nth_error_app1. lia.
  - intros i step n H. rewrite grade_step_spec.
    destruct H as [H|[H|H]]; rewrite H; reflexivity.
Qed.

Lemma award_badge_fields userId scenario result st :
  let r := result_of (award_badge userId scenario result st) in
  r_score r = r_score result /\
  r_all_correct r = r_all_correct result /\
  level_progress r = level_progress result.
Proof.
  rewrite award_badge_run.
  destruct (Repo.findByLevel (level_id scenario) st) as [b|];
    [destruct (Repo.findByUserAndBadge userId (badge_id b) st)|];
    simpl; auto.
Qed.

Lemma recordSubmission_fields userId scenario scenarioId result st :
  let r := result_of (recordSubmission userId scenario scenarioId result st) in
  r_score r = r_score result /\ r_all_correct r = r_all_correct result.
Proof.
  rewrite recordSubmission_run. cbv zeta.
  rewrite after_level_upsert_run.
  destruct (completed_flag _ _ _); [|simpl; auto].
  match goal with
  | |- context [award_badge ?a ?b ?c ?d] =>
      destruct (award_badge_fields a b c d) as (H1 & H2 & _)
  end.
  unfold result_of in *. simpl in *. rewrite H1, H2. auto.
Qed.

(** The response of a graded submission carries the score and the flag
    of [grade], with or without a user. *)
Lemma submit_graded_response req st scenario answers :
  userAnswers req = VArr answers ->
  Repo.findById (params_id req) st = Some scenario ->
  Repo.findByScenario (params_id req) st <> [] ->
  exists r,
    result_of (submit req st) = json 200 (Result r) /\
    r_score r =
      r_score (grade scenario (params_id req)
                 (Repo.findByScenario (params_id req) st) answers) /\
    r_all_correct r =
      r_all_correct (grade scenario (params_id req)
                       (Repo.findByScenario (params_id req) st) answers).
Proof.
  intros Ha Hs Hsteps. rewrite (submit_graded _ _ _ _ Ha Hs Hsteps). cbv zeta.
  destruct (userId_of req) as [u|].
  - eexists. split; [reflexivity|]. apply recordSubmission_fields.
  - eexists. split; [reflexivity|]. auto.
Qed.

(** C1: a submission with a list of answers for a scenario that has
    steps is answered with [score = round(correct_count / total_steps *
    100)], evaluated as the runtime does, and with [all_correct] true
    exactly when [correct_count = total_steps]; [correct_count] is the
    number of positions whose answer matches the step's marker ignoring
    case.  The score is an integer in 0..100 (for any step count a
    Number holds exactly); on the step counts checked exhaustively it is
    an integer closest to the exact percentage.  With markers A, B, C, D
    and answers a, b, x, d the score is 75 and [all_correct] is false. *)
Theorem submit_score_and_all_correct
    (req : Request) (st : Store) (scenario : Scenario)
    (answers : list answer)
    (Hanswers : userAnswers req = VArr answers)
    (Hscenario : Repo.findById (params_id req) st = Some scenario)
    (Hsteps : Repo.findByScenario (params_id req) st <> []) :
  let steps := Repo.findByScenario (params_id req) st in
  let correct_count := GradingSpec.correct_count (sort_steps steps) answers in
  let total_steps := length steps in
  exists r,
    result_of (submit req st) = json 200 (Result r) /\
    r_score r = round_percent correct_count total_steps /\
    (Z.of_nat total_steps < 2 ^ 53 -> 0 <= r_score r <= 100) /\
    ((total_steps <= checked_steps)%nat ->
     GradingSpec.closest_percent (r_score r) correct_count total_steps) /\
    (r_all_correct r = true <-> correct_count = total_steps) /\
    (map correct_action (sort_steps steps) =
       [Some "A"; Some "B"; Some "C"; Some "D"] ->
     answers = [AStr "a"; AStr "b"; AStr "x"; AStr "d"] ->
     correct_count = 3%nat /\ r_score r = 75 /\ r_all_correct r = false).
Proof.
  cbv zeta.
  destruct (submit_graded_response req st scenario answers Hanswers Hscenario
              Hsteps) as (r & Hr & Hscore & Hall).
  unfold grade in Hscore, Hall. simpl in Hscore, Hall.
  rewrite count_correct_spec in Hscore, Hall.
  set (steps := Repo.findByScenario (params_id req) st) in *.
  pose proof (correct_count_le (sort_steps steps) answers) as Hle.
  rewrite sort_steps_length in Hle.
  assert (Hpos : (1 <= length steps)%nat).
  { destruct steps; [congruence | simpl; lia]. }
  exists r. split; [exact Hr|]. split; [exact Hscore|].
  split; [|split; [|split]].
  - intros Hsize. rewrite Hscore. apply round_percent_range; lia.
  - intros Hbound. rewrite Hscore. apply round_percent_closest; lia.
  - rewrite Hall. apply Nat.eqb_eq.
  - intros Hmarkers ->.
    assert (Hlen : length steps = 4%nat).
    { rewrite <- sort_steps_length, <- (length_map correct_action), Hmarkers.
      reflexivity. }
    assert (Hcount : GradingSpec.correct_count (sort_steps steps)
                       [AStr "a"; AStr "b"; AStr "x"; AStr "d"] = 3%nat).
    { destruct (sort_steps steps) as [|s1 [|s2 [|s3 [|s4 [|s5 l]]]]];
        try discriminate Hmarkers.
      injection Hmarkers as H1 H2 H3 H4.
      unfold GradingSpec.correct_count. simpl.
      unfold GradingSpec.answer_correct. rewrite H1, H2, H3, H4.
      reflexivity. }
    rewrite Hcount in *. rewrite Hlen in *.
    split; [reflexivity|]. split.
    + rewrite Hscore. vm_compute. reflexivity.
    + rewrite Hall. reflexivity.
Qed.

Lemma submit_score_and_all_correct_witness :
  exists r,
    result_of (submit (Demo.request 1 None ["a"; "b"; "x"; "d"]) Demo.store)
      = json 200 (Result r) /\
    r_score r = 75 /\ r_all_correct r = false.
Proof.
  destruct (submit_score_and_all_correct
              (Demo.request 1 None ["a"; "b"; "x"; "d"]) Demo.store
              Demo.fire [AStr "a"; AStr "b"; AStr "x"; AStr "d"]
              eq_refl eq_refl ltac:(discriminate))
    as (r & Hr & _ & _ & _ & _ & Hex).
  exists r. split; [exact Hr|].
  destruct (Hex eq_refl eq_refl) as (_ & H75 & Hall). split; assumption.
Defined.

(** ** The cascade in closed form *)

Lemma recordSubmission_closed userId scenario scenarioId result st :
  let r := recordSubmission userId scenario scenarioId result st in
  store_of r = cascade_store userId scenario scenarioId result st /\
  writes_of r = cascade_writes userId scenario scenarioId result st /\
  level_progress (result_of r) =
    Some (cascade_progress userId scenario scenarioId result st) /\
  awarded_badge (result_of r) =
    match cascade_award userId scenario scenarioId result st with
    | Some b => Some b
    | None => awarded_badge result
    end.
Proof.
  rewrite recordSubmission_run. cbv zeta.
  rewrite after_level_upsert_run.
  unfold cascade_store, cascade_writes, cascade_progress, cascade_award,
    completedThisLevel.
  destruct (completed_flag userId (level_id scenario)
              (after_best_score userId scenarioId result st)) eqn:Ec.
  - rewrite award_badge_run. unfold badge_to_award, after_unlock.
    destruct (level_id scenario <? max_level);
      unfold Repo.findByLevel, Repo.findByUserAndBadge, after_best_score,
        unlock_writes, award_rows, award_writes; simpl;
      destruct (List.find _ (badges st)) as [b|]; simpl;
      try destruct (List.find _ (user_badges st)); simpl;
      rewrite ?app_nil_r;
      repeat split; reflexivity.
  - simpl. repeat split; reflexivity.
Qed.

Lemma submit_recorded req st scenario answers userId :
  userAnswers req = VArr answers ->
  Repo.findById (params_id req) st = Some scenario ->
  Repo.findByScenario (params_id req) st <> [] ->
  userId_of req = Some userId ->
  let result :=
    grade scenario (params_id req)
          (Repo.findByScenario (params_id req) st) answers in
  store_of (submit req st) =
    cascade_store userId scenario (params_id req) result st /\
  writes_of (submit req st) =
    cascade_writes userId scenario (params_id req) result st /\
  exists r,
    result_of (submit req st) = json 200 (Result r) /\
    r_score r = r_score result /\
    r_all_correct r = r_all_correct result /\
    level_progress r =
      Some (cascade_progress userId scenario (params_id req) result st) /\
    awarded_badge r =
      cascade_award userId scenario (params_id req) result st.
Proof.
  intros Ha Hs Hsteps Hu. cbv zeta.
  rewrite (submit_graded _ _ _ _ Ha Hs Hsteps). cbv zeta. rewrite Hu.
  match goal with
  | |- context [recordSubmission ?a ?b ?c ?d ?e] =>
      destruct (recordSubmission_closed a b c d e) as (H1 & H2 & H3 & H4);
      destruct (recordSubmission_fields a b c d e) as (H5 & H6)
  end.
  cbv zeta in *.
  split; [exact H1|]. split; [exact H2|].
  eexists. split; [reflexivity|].
  split; [exact H5|]. split; [exact H6|]. split; [exact H3|].
  rewrite H4.
  destruct (cascade_award _ _ _ _ _); reflexivity.
Qed.

Lemma submit_guest req st scenario answers :
  userAnswers req = VArr answers ->
  Repo.findById (params_id req) st = Some scenario ->
  Repo.findByScenario (params_id req) st <> [] ->
  userId_of req = None ->
  submit req st =
  (json 200
     (Result (grade scenario (params_id req)
                (Repo.findByScenario (params_id req) st) answers)),
   st, []).
Proof.
  intros Ha Hs Hsteps Hu.
  rewrite (submit_graded _ _ _ _ Ha Hs Hsteps). cbv zeta. now rewrite Hu.
Qed.

(** ** Every submission either leaves the store alone or runs the cascade *)

Lemma submit_cases req st :
  (store_of (submit req st) = st /\ writes_of (submit req st) = []) \/
  (exists scenario answers userId,
      userAnswers req = VArr answers /\
      Repo.findById (params_id req) st = Some scenario /\
      Repo.findByScenario (params_id req) st <> [] /\
      userId_of req = Some userId).
Proof.
  destruct (Array_isArray (userAnswers req)) eqn:Ha.
  - destruct (Repo.findById (params_id req) st) as [scenario|] eqn:Hs.
    + destruct (Repo.findByScenario (params_id req) st) as [|s0 l] eqn:Hst.
      * left. now rewrite (submit_no_steps req st scenario Ha Hs Hst).
      * destruct (userAnswers req) as [| | | | | |answers] eqn:Hv;
          try discriminate Ha.
        destruct (userId_of req) as [u|] eqn:Hu.
        -- right. exists scenario, answers, u.
           repeat split; congruence.
        -- left.
           assert (Hne : Repo.findByScenario (params_id req) st <> [])
             by (rewrite Hst; discriminate).
           rewrite (submit_guest req st scenario answers Hv Hs Hne Hu). auto.
    + left. now rewrite (submit_no_scenario req st Ha Hs).
  - left. now rewrite (submit_not_array req st Ha).
Qed.

(** ** UserBadge rows *)

Lemma find_none_count {A} (f : A -> bool) (l : list A) :
  List.find f l = None -> length (List.filter f l) = 0%nat.
Proof.
  induction l as [|x l IH]; simpl; [reflexivity|].
  destruct (f x); [discriminate|assumption].
Qed.

Lemma find_app_row {A} (f : A -> bool) (l : list A) (x : A) :
  f x = true -> exists y, List.find f (l ++ [x]) = Some y.
Proof.
  intros Hx. induction l as [|z l IH]; simpl.
  - rewrite Hx. eauto.
  - destruct (f z); eauto.
Qed.

Lemma count_user_badge_app user badge rows more :
  count_user_badge user badge (rows ++ more) =
  (count_user_badge user badge rows + count_user_badge user badge more)%nat.
Proof.
  unfold count_user_badge. now rewrite List.filter_app, length_app.
Qed.

Lemma is_user_badge_row user badge u b :
  Repo.is_user_badge user badge {| ub_user_id := u; ub_badge_id := b |} = true
  <-> u = user /\ b = badge.
Proof.
  unfold Repo.is_user_badge. simpl.
  rewrite andb_true_iff, !Z.eqb_eq. reflexivity.
Qed.

Lemma badge_to_award_some userId scenario st badge :
  badge_to_award userId scenario st = Some badge <->
  Repo.findByLevel (level_id scenario) st = Some badge /\
  Repo.findByUserAndBadge userId (badge_id badge) st = None.
Proof.
  unfold badge_to_award.
  destruct (Repo.findByLevel (level_id scenario) st) as [b|].
  - destruct (Repo.findByUserAndBadge userId (badge_id b) st) eqn:E.
    + split; [discriminate|]. intros [[= ->] H]. congruence.
    + split; [intros [= ->]; auto | intros [[= ->] _]; reflexivity].
  - split; [discriminate | intros [H _]; discriminate].
Qed.

Lemma cascade_store_badge_count userId scenario scenarioId result st u b :
  (count_user_badge u b
     (user_badges (cascade_store userId scenario scenarioId result st))
   <= Nat.max 1 (count_user_badge u b (user_badges st)))%nat.
Proof.
  unfold cascade_store. simpl user_badges.
  destruct (completedThisLevel _ _ _ _ _); [|lia].
  rewrite count_user_badge_app.
  destruct (badge_to_award userId scenario st) as [badge|] eqn:E;
    simpl award_rows; [|unfold count_user_badge at 2; simpl; lia].
  apply badge_to_award_some in E as [_ Hnone].
  unfold count_user_badge at 2. simpl.
  destruct (Repo.is_user_badge u b _) eqn:Hrow; simpl; [|lia].
  apply is_user_badge_row in Hrow as [<- <-].
  unfold Repo.findByUserAndBadge in Hnone.
  unfold count_user_badge. rewrite (find_none_count _ _ Hnone). simpl. lia.
Qed.

Lemma submit_badge_count req st u b :
  (count_user_badge u b (user_badges (store_of (submit req st)))
   <= Nat.max 1 (count_user_badge u b (user_badges st)))%nat.
Proof.
  destruct (submit_cases req st)
    as [[-> _]|(scenario & answers & userId & Ha & Hs & Hst & Hu)]; [lia|].
  destruct (submit_recorded req st scenario answers userId Ha Hs Hst Hu)
    as (-> & _).
  apply cascade_store_badge_count.
Qed.

Lemma submit_all_badge_count reqs : forall st u b,
  (count_user_badge u b (user_badges (submit_all reqs st))
   <= Nat.max 1 (count_user_badge u b (user_badges st)))%nat.
Proof.
  induction reqs as [|req rest IH]; intros st u b; simpl; [lia|].
  specialize (IH (store_of (submit req st)) u b).
  pose proof (submit_badge_count req st u b). lia.
Qed.

(** ** Which writes the cascade issues *)

Lemma in_cascade_writes_progress userId scenario scenarioId result st
    u l un co :
  In (WUpsertProgress u l un co)
     (cascade_writes userId scenario scenarioId result st) <->
  (u = userId /\ l = level_id scenario /\ un = true /\
   co = completedThisLevel userId scenario scenarioId result st) \/
  (completedThisLevel userId scenario scenarioId result st = true /\
   level_id scenario < 6 /\
   u = userId /\ l = level_id scenario + 1 /\ un = true /\ co = false).
Proof.
  unfold cascade_writes, unlock_writes, max_level.
  destruct (completedThisLevel userId scenario scenarioId result st);
    destruct (Z.ltb_spec (level_id scenario) 6) as [Hlt|Hge];
    destruct (badge_to_award userId scenario st); simpl; split;
    intros H;
    repeat match goal with
           | H : _ \/ _ |- _ => destruct H
           | H : _ /\ _ |- _ => destruct H
           | H : False |- _ => destruct H
           | H : WUpsertProgress _ _ _ _ = WUpsertProgress _ _ _ _ |- _ =>
               injection H as <- <- <- <-
           end;
    subst; try discriminate; try lia; auto 10.
Qed.

Lemma in_cascade_writes_create userId scenario scenarioId result st u b :
  In (WCreateUserBadge u b)
     (cascade_writes userId scenario scenarioId result st) <->
  completedThisLevel userId scenario scenarioId result st = true /\
  u = userId /\
  exists badge,
    badge_to_award userId scenario st = Some badge /\ badge_id badge = b.
Proof.
  unfold cascade_writes, unlock_writes.
  destruct (completedThisLevel userId scenario scenarioId result st);
    destruct (level_id scenario <? max_level);
    destruct (badge_to_award userId scenario st) as [badge|]; simpl; split;
    intros H;
    repeat match goal with
           | H : _ \/ _ |- _ => destruct H
           | H : _ /\ _ |- _ => destruct H
           | H : ex _ |- _ => destruct H
           | H : False |- _ => destruct H
           | H : WCreateUserBadge _ _ = WCreateUserBadge _ _ |- _ =>
               injection H as <- <-
           | H : Some _ = Some _ |- _ => injection H as <-
           end;
    subst; try discriminate; eauto 10.
Qed.

(** ** Authenticated submissions that reach the cascade *)

Section AuthenticatedSubmission.

Variables (req : Request) (st : Store) (scenario : Scenario).
Variables (answers : list answer) (userId : Z).

Hypothesis Hanswers : userAnswers req = VArr answers.
Hypothesis Hscenario : Repo.findById (params_id req) st = Some scenario.
Hypothesis Hsteps : Repo.findByScenario (params_id req) st <> [].
Hypothesis Huser : userId_of req = Some userId.

Local Abbreviation scenarioId := (params_id req).
Local Abbreviation result :=
  (grade scenario (params_id req)
         (Repo.findByScenario (params_id req) st) answers).
Local Abbreviation lvl := (level_id scenario).
Local Abbreviation completed_now :=
  (completedThisLevel userId scenario (params_id req) result st).

Lemma recorded_store :
  store_of (submit req st) = cascade_store userId scenario scenarioId result st.
Proof. apply (submit_recorded req st scenario answers userId); assumption. Qed.

Lemma recorded_writes :
  writes_of (submit req st) =
  cascade_writes userId scenario scenarioId result st.
Proof. apply (submit_recorded req st scenario answers userId); assumption. Qed.

Lemma recorded_response :
  exists r,
    result_of (submit req st) = json 200 (Result r) /\
    r_score r = r_score result /\
    r_all_correct r = r_all_correct result /\
    level_progress r =
      Some (cascade_progress userId scenario scenarioId result st) /\
    awarded_badge r = cascade_award userId scenario scenarioId result st.
Proof. apply (submit_recorded req st scenario answers userId); assumption. Qed.

(** C8: an authenticated submission always issues the best-score upsert,
    as its first write, with the score and the flag just computed (the
    ones the response carries); whatever row the pair had before, also
    one with a higher score, the stored row afterwards holds the new
    values. *)
Theorem best_score_always_written :
  (exists rest,
      writes_of (submit req st) =
      WUpsertBestScore userId scenarioId
        (round_percent
           (count_correct (Repo.findByScenario scenarioId st) answers)
           (length (Repo.findByScenario scenarioId st)))
        (count_correct (Repo.findByScenario scenarioId st) answers
         =? length (Repo.findByScenario scenarioId st))%nat
      :: rest) /\
  (exists r,
      result_of (submit req st) = json 200 (Result r) /\
      attempts (store_of (submit req st)) !! (userId, scenarioId) =
        Some {| score := r_score r; all_correct := r_all_correct r |}) /\
  (forall old,
      attempts st !! (userId, scenarioId) = Some old ->
      r_score result < score old ->
      attempts (store_of (submit req st)) !! (userId, scenarioId) =
        Some {| score := r_score result;
                all_correct := r_all_correct result |}) /\
  (forall user scen sc ac st0,
      writes_of (saveBestScore user scen sc ac st0) =
        [WUpsertBestScore user scen sc ac] /\
      attempts (store_of (saveBestScore user scen sc ac st0)) !! (user, scen) =
        Some {| score := sc; all_correct := ac |}).
Proof.
  rewrite recorded_writes, recorded_store.
  destruct recorded_response as (r & Hr & Hscore & Hall & _).
  split; [|split; [|split]].
  - unfold cascade_writes. eexists. reflexivity.
  - exists r. split; [exact Hr|].
    unfold cascade_store. simpl attempts.
    rewrite lookup_insert_eq, Hscore, Hall. reflexivity.
  - intros old _ _. unfold cascade_store. simpl attempts.
    now rewrite lookup_insert_eq.
  - intros user scen sc ac st0. split; [reflexivity|].
    apply lookup_insert_eq.
Qed.

(** C2: the completion flag of an authenticated submission is
    [(total_in_level > 0) AND (perfect_in_level = total_in_level)], both
    counts taken from the store as it is right after the best-score
    upsert of this submission.  The flag is what the response reports,
    what the upsert of the current level is called with, and what the
    UserLevel row holds afterwards; with no scenario in the level it is
    false. *)
Theorem level_completion_recomputed_fresh :
  let st1 :=
    Repo.upsertBestScore userId scenarioId
      (r_score result) (r_all_correct result) st in
  let total_in_level := Repo.countByLevel lvl st1 in
  let perfect_in_level := Repo.countPerfectByUserInLevel userId lvl st1 in
  let completed_this_level :=
    (0 <? total_in_level) && (perfect_in_level =? total_in_level) in
  (completed_this_level = true <->
   0 < total_in_level /\ perfect_in_level = total_in_level) /\
  (exists r p,
      result_of (submit req st) = json 200 (Result r) /\
      level_progress r = Some p /\
      lp_completed p = completed_this_level /\
      (completed_this_level = false ->
       p = LevelIncomplete lvl perfect_in_level total_in_level)) /\
  In (WUpsertProgress userId lvl true completed_this_level)
     (writes_of (submit req st)) /\
  user_levels (store_of (submit req st)) !! (userId, lvl) =
    Some {| unlocked := true; completed := completed_this_level |} /\
  (total_in_level = 0 -> completed_this_level = false).
Proof.
  cbv zeta.
  rewrite recorded_writes, recorded_store.
  destruct recorded_response as (r & Hr & _ & _ & Hp & _).
  unfold cascade_progress in Hp.
  unfold cascade_writes, cascade_store, completedThisLevel, completed_flag,
    after_best_score in *.
  set (st1 := Repo.upsertBestScore userId scenarioId
                (r_score result) (r_all_correct result) st) in *.
  set (total := Repo.countByLevel lvl st1) in *.
  set (perfect := Repo.countPerfectByUserInLevel userId lvl st1) in *.
  split; [|split; [|split; [|split]]].
  - rewrite andb_true_iff, Z.ltb_lt, Z.eqb_eq. reflexivity.
  - exists r. eexists. split; [exact Hr|]. split; [exact Hp|].
    destruct ((0 <? total) && (perfect =? total)); split;
      try reflexivity; discriminate.
  - right. left. reflexivity.
  - simpl user_levels.
    destruct ((0 <? total) && (perfect =? total) && (lvl <? max_level)).
    + rewrite lookup_insert_ne by (intros H; inversion H; lia).
      now rewrite lookup_insert_eq.
    + now rewrite lookup_insert_eq.
  - intros H0. rewrite H0. reflexivity.
Qed.


(** C4: an authenticated submission issues the upsert of the next level
    (unlocked, not completed) exactly when the current level is completed
    by this submission and its id is below 6.  No other write of the
    submission addresses the next level, and unless both conditions hold
    every UserLevel row of the next level is left as it was. *)
Theorem next_level_unlock_iff :
  (In (WUpsertProgress userId (lvl + 1) true false)
      (writes_of (submit req st))
   <-> completed_now = true /\ lvl < 6) /\
  (forall u un co,
      In (WUpsertProgress u (lvl + 1) un co) (writes_of (submit req st)) ->
      completed_now = true /\ lvl < 6 /\
      u = userId /\ un = true /\ co = false) /\
  (completed_now = true /\ lvl < 6 ->
   user_levels (store_of (submit req st)) !! (userId, lvl + 1) =
     Some {| unlocked := true; completed := false |}) /\
  (~ (completed_now = true /\ lvl < 6) ->
   forall u,
     user_levels (store_of (submit req st)) !! (u, lvl + 1) =
     user_levels st !! (u, lvl + 1)).
Proof.
  rewrite recorded_writes, recorded_store.
  split; [|split; [|split]].
  - rewrite in_cascade_writes_progress. split.
    + intros [(_ & E & _)|(Hc & Hlt & _)]; [lia|auto].
    + intros [Hc Hlt]. right. auto 10.
  - intros u un co Hin. apply in_cascade_writes_progress in Hin.
    destruct Hin as [(_ & E & _)|(Hc & Hlt & -> & _ & -> & ->)]; [lia|auto].
  - intros [Hc Hlt]. unfold cascade_store. simpl user_levels.
    rewrite Hc. apply Z.ltb_lt in Hlt. unfold max_level. rewrite Hlt. simpl.
    apply lookup_insert_eq.
  - intros Hno u. unfold cascade_store, max_level. simpl user_levels.
    destruct completed_now eqn:Hc;
      destruct (Z.ltb_spec lvl 6) as [Hlt|Hge]; simpl;
      try (exfalso; apply Hno; auto; fail);
      apply lookup_insert_ne; intros E; inversion E; lia.
Qed.

(** C10: when an authenticated submission completes a level whose id is
    6 or more, the response still reports [next_level_unlocked =
    level_id + 1], although the submission issues no write for that
    level and leaves its UserLevel rows as they were. *)
Theorem ceiling_reports_unlock_without_write
    (Hcompleted : completed_now = true) (Hceiling : 6 <= lvl) :
  (exists r,
      result_of (submit req st) = json 200 (Result r) /\
      level_progress r = Some (LevelCompleted lvl (lvl + 1))) /\
  (forall u un co,
      ~ In (WUpsertProgress u (lvl + 1) un co) (writes_of (submit req st))) /\
  (forall u,
      user_levels (store_of (submit req st)) !! (u, lvl + 1) =
      user_levels st !! (u, lvl + 1)).
Proof.
  split; [|split].
  - destruct recorded_response as (r & Hr & _ & _ & Hp & _).
    exists r. split; [exact Hr|].
    rewrite Hp. unfold cascade_progress. now rewrite Hcompleted.
  - intros u un co Hin. rewrite recorded_writes in Hin.
    apply in_cascade_writes_progress in Hin.
    destruct Hin as [(_ & E & _)|(_ & Hlt & _)]; lia.
  - intros u. rewrite recorded_store.
    unfold cascade_store, max_level. simpl user_levels.
    rewrite Hcompleted.
    destruct (Z.ltb_spec lvl 6) as [Hlt|_]; [lia|]. simpl.
    apply lookup_insert_ne. intros E. inversion E. lia.
Qed.

(** C3: the badge-award step creates a UserBadge row only when this
    submission completes the level, the level has a badge and the user
    holds no row for that badge yet; that is also exactly when the
    response reports the badge as awarded.  A submission never raises the
    number of rows of a (user, badge) pair above one, and neither does any
    sequence of submissions, however often completion is triggered
    again. *)
Theorem badge_awarded_at_most_once :
  (forall u b,
      In (WCreateUserBadge u b) (writes_of (submit req st)) <->
      completed_now = true /\ u = userId /\
      exists badge,
        Repo.findByLevel lvl st = Some badge /\
        Repo.findByUserAndBadge userId (badge_id badge) st = None /\
        badge_id badge = b) /\
  (exists r,
      result_of (submit req st) = json 200 (Result r) /\
      forall ab,
        awarded_badge r = Some ab <->
        completed_now = true /\
        exists badge,
          Repo.findByLevel lvl st = Some badge /\
          Repo.findByUserAndBadge userId (badge_id badge) st = None /\
          ab = awarded_of badge) /\
  (forall u b,
      (count_user_badge u b (user_badges (store_of (submit req st)))
       <= Nat.max 1 (count_user_badge u b (user_badges st)))%nat) /\
  (forall reqs st0 u b,
      (count_user_badge u b (user_badges (submit_all reqs st0))
       <= Nat.max 1 (count_user_badge u b (user_badges st0)))%nat).
Proof.
  split; [|split; [|split]].
  - intros u b. rewrite recorded_writes, in_cascade_writes_create.
    split.
    + intros (Hc & -> & badge & Hb & <-).
      apply badge_to_award_some in Hb as [H1 H2]. eauto 10.
    + intros (Hc & -> & badge & H1 & H2 & <-).
      split; [exact Hc|]. split; [reflexivity|].
      exists badge. split; [|reflexivity].
      apply badge_to_award_some. auto.
  - destruct recorded_response as (r & Hr & _ & _ & _ & Hab).
    exists r. split; [exact Hr|]. intros ab. rewrite Hab.
    unfold cascade_award.
    destruct completed_now.
    + destruct (badge_to_award userId scenario st) as [badge|] eqn:E; simpl.
      * apply badge_to_award_some in E as [H1 H2]. split.
        -- intros [= <-]. eauto 10.
        -- intros (_ & badge' & H1' & _ & ->). congruence.
      * split; [discriminate|].
        intros (_ & badge' & H1' & H2' & _).
        assert (badge_to_award userId scenario st = Some badge')
          by (apply badge_to_award_some; auto).
        congruence.
    + split; [discriminate|]. intros [? _]. discriminate.
  - intros u b. apply submit_badge_count.
  - intros reqs st0 u b. apply submit_all_badge_count.
Qed.

End AuthenticatedSubmission.

(** ** The cascade on the sample data *)

Lemma best_score_always_written_witness :
  attempts
    (store_of (submit (Demo.request 1 (Some 7) ["a"; "b"; "x"; "d"])
                      Demo.store_with_perfect))
    !! (7, 1)
  = Some {| score := 75; all_correct := false |}.
Proof.
  destruct (best_score_always_written
              (Demo.request 1 (Some 7) ["a"; "b"; "x"; "d"])
              Demo.store_with_perfect Demo.fire
              [AStr "a"; AStr "b"; AStr "x"; AStr "d"] 7
              eq_refl eq_refl ltac:(discriminate) eq_refl)
    as (_ & _ & H & _).
  refine (eq_trans (H {| score := 100; all_correct := true |} _ _) _);
    vm_compute; reflexivity.
Defined.

Lemma level_completion_recomputed_fresh_witness :
  user_levels
    (store_of (submit (Demo.request 1 (Some 7) ["A"; "B"; "C"; "D"])
                      Demo.store))
    !! (7, 1)
  = Some {| unlocked := true; completed := true |}.
Proof.
  destruct (level_completion_recomputed_fresh
              (Demo.request 1 (Some 7) ["A"; "B"; "C"; "D"])
              Demo.store Demo.fire
              [AStr "A"; AStr "B"; AStr "C"; AStr "D"] 7
              eq_refl eq_refl ltac:(discriminate) eq_refl)
    as (_ & _ & _ & H & _).
  refine (eq_trans H _). vm_compute. reflexivity.
Defined.

Lemma next_level_unlock_iff_witness :
  user_levels
    (store_of (submit (Demo.request 1 (Some 7) ["A"; "B"; "C"; "D"])
                      Demo.store))
    !! (7, 2)
  = Some {| unlocked := true; completed := false |}.
Proof.
  destruct (next_level_unlock_iff
              (Demo.request 1 (Some 7) ["A"; "B"; "C"; "D"])
              Demo.store Demo.fire
              [AStr "A"; AStr "B"; AStr "C"; AStr "D"] 7
              eq_refl eq_refl ltac:(discriminate) eq_refl)
    as (_ & _ & H & _).
  apply H. split; vm_compute; reflexivity.
Defined.

Lemma ceiling_reports_unlock_without_write_witness :
  (exists r,
      result_of (submit (Demo.request 2 (Some 7) ["a"]) Demo.store)
        = json 200 (Result r) /\
      level_progress r = Some (LevelCompleted 6 7)) /\
  user_levels (store_of (submit (Demo.request 2 (Some 7) ["a"]) Demo.store))
    !! (7, 7) = None.
Proof.
  destruct (ceiling_reports_unlock_without_write
              (Demo.request 2 (Some 7) ["a"]) Demo.store Demo.drill
              [AStr "a"] 7
              eq_refl eq_refl ltac:(discriminate) eq_refl
              ltac:(vm_compute; reflexivity)
              ltac:(vm_compute; discriminate))
    as (H1 & _ & H3).
  split; [exact H1|]. refine (eq_trans (H3 7) _). reflexivity.
Defined.

Lemma badge_awarded_at_most_once_witness :
  In (WCreateUserBadge 7 10)
     (writes_of (submit (Demo.request 1 (Some 7) ["A"; "B"; "C"; "D"])
                        Demo.store)).
Proof.
  destruct (badge_awarded_at_most_once
              (Demo.request 1 (Some 7) ["A"; "B"; "C"; "D"])
              Demo.store Demo.fire
              [AStr "A"; AStr "B"; AStr "C"; AStr "D"] 7
              eq_refl eq_refl ltac:(discriminate) eq_refl)
    as (H & _).
  apply H. split; [vm_compute; reflexivity|]. split; [reflexivity|].
  exists {| badge_id := 10; badge_level_id := 1; name := "Level 1";
            description := "Completed level 1";
            icon_url := "/badges/1.png" |}.
  repeat split.
Defined.

(** ** Recording the same submission again *)

Lemma counts_ext (a b : Store) user lvl :
  scenarios a = scenarios b -> attempts a = attempts b ->
  Repo.countByLevel lvl a = Repo.countByLevel lvl b /\
  Repo.countPerfectByUserInLevel user lvl a =
    Repo.countPerfectByUserInLevel user lvl b.
Proof.
  intros Hs Ha. unfold Repo.countByLevel, Repo.countPerfectByUserInLevel.
  rewrite Hs, Ha. split; [reflexivity|]. f_equal.
  apply length_filter_ext. intros [[u s] at_] _.
  unfold Repo.perfect_in_level, Repo.findById. now rewrite Hs.
Qed.

Lemma completedThisLevel_cascade userId scenario scenarioId result st :
  completedThisLevel userId scenario scenarioId result
    (cascade_store userId scenario scenarioId result st) =
  completedThisLevel userId scenario scenarioId result st.
Proof.
  unfold completedThisLevel, completed_flag.
  match goal with
  | |- context [Repo.countByLevel ?l ?a] =>
      match goal with
      | |- _ = (_ <? Repo.countByLevel _ ?b) && _ =>
          destruct (counts_ext a b userId l) as [H1 H2]
      end
  end.
  - reflexivity.
  - unfold after_best_score, Repo.upsertBestScore, cascade_store. simpl.
    apply insert_insert_eq.
  - rewrite H1, H2. reflexivity.
Qed.

Lemma badge_to_award_cascade userId scenario scenarioId result st :
  completedThisLevel userId scenario scenarioId result st = true ->
  badge_to_award userId scenario
    (cascade_store userId scenario scenarioId result st) = None.
Proof.
  intros Hc. unfold badge_to_award at 1.
  unfold Repo.findByLevel, Repo.findByUserAndBadge, cascade_store.
  simpl. rewrite Hc.
  destruct (List.find _ (badges st)) as [badge|] eqn:Eb; [|reflexivity].
  unfold badge_to_award, Repo.findByLevel, Repo.findByUserAndBadge.
  rewrite Eb.
  destruct (List.find _ (user_badges st)) as [row|] eqn:Er; simpl.
  - rewrite app_nil_r, Er. reflexivity.
  - destruct (find_app_row (Repo.is_user_badge userId (badge_id badge))
                (user_badges st)
                {| ub_user_id := userId; ub_badge_id := badge_id badge |})
      as [y Hy].
    + now apply is_user_badge_row.
    + now rewrite Hy.
Qed.

Lemma cascade_store_idempotent userId scenario scenarioId result st :
  cascade_store userId scenario scenarioId result
    (cascade_store userId scenario scenarioId result st) =
  cascade_store userId scenario scenarioId result st.
Proof.
  unfold cascade_store at 1. cbv zeta.
  rewrite completedThisLevel_cascade.
  destruct (completedThisLevel userId scenario scenarioId result st) eqn:Hc.
  - rewrite (badge_to_award_cascade _ _ _ _ _ Hc).
    unfold cascade_store. rewrite Hc. simpl.
    rewrite app_nil_r, insert_insert_eq. f_equal.
    destruct (level_id scenario <? max_level).
    + apply map_eq. intros k.
      rewrite !lookup_insert. repeat case_decide; congruence.
    + apply insert_insert_eq.
  - unfold cascade_store. rewrite Hc. simpl.
    rewrite !insert_insert_eq. reflexivity.
Qed.

Lemma cascade_writes_again userId scenario scenarioId result st u b :
  ~ In (WCreateUserBadge u b)
       (cascade_writes userId scenario scenarioId result
          (cascade_store userId scenario scenarioId result st)).
Proof.
  rewrite in_cascade_writes_create, completedThisLevel_cascade.
  intros (Hc & _ & badge & Hb & _).
  rewrite (badge_to_award_cascade _ _ _ _ _ Hc) in Hb. discriminate.
Qed.

(** C5: recording a submission a second time, with the same grading
    result and from the store the first recording left, leaves that store
    as it is: the Attempt row, the UserLevel rows and the UserBadge rows
    are those of the first run, and the second run creates no UserBadge
    row.  The same holds for the whole handler run twice on one
    request. *)
Theorem submission_recording_idempotent :
  (forall userId scenario scenarioId result st,
      let once := recordSubmission userId scenario scenarioId result st in
      let twice :=
        recordSubmission userId scenario scenarioId result (store_of once) in
      store_of twice = store_of once /\
      attempts (store_of twice) = attempts (store_of once) /\
      user_levels (store_of twice) = user_levels (store_of once) /\
      user_badges (store_of twice) = user_badges (store_of once) /\
      (forall u b, ~ In (WCreateUserBadge u b) (writes_of twice))) /\
  (forall req st,
      let once := submit req st in
      let twice := submit req (store_of once) in
      store_of twice = store_of once /\
      (forall u b, ~ In (WCreateUserBadge u b) (writes_of twice))).
Proof.
  split.
  - intros userId scenario scenarioId result st. cbv zeta.
    destruct (recordSubmission_closed userId scenario scenarioId result st)
      as (Hst & _). cbv zeta in Hst. rewrite Hst.
    destruct (recordSubmission_closed userId scenario scenarioId result
                (cascade_store userId scenario scenarioId result st))
      as (Hst2 & Hw2 & _). cbv zeta in Hst2, Hw2.
    rewrite Hst2, Hw2, cascade_store_idempotent.
    repeat split; try reflexivity.
    intros u b. apply cascade_writes_again.
  - intros req st. cbv zeta.
    destruct (submit_cases req st)
      as [[Hst Hw]|(scenario & answers & userId & Ha & Hs & Hsteps & Hu)].
    + rewrite Hst. split; [exact Hst|]. intros u b. rewrite Hw. auto.
    + destruct (submit_recorded req st scenario answers userId Ha Hs Hsteps Hu)
        as (Hst & _). rewrite Hst.
      set (result := grade scenario (params_id req)
                       (Repo.findByScenario (params_id req) st) answers).
      set (st1 := cascade_store userId scenario (params_id req) result st).
      assert (Hs1 : Repo.findById (params_id req) st1 = Some scenario)
        by exact Hs.
      assert (Hsteps1 : Repo.findByScenario (params_id req) st1 =
                        Repo.findByScenario (params_id req) st)
        by reflexivity.
      assert (Hne1 : Repo.findByScenario (params_id req) st1 <> [])
        by (rewrite Hsteps1; exact Hsteps).
      destruct (submit_recorded req st1 scenario answers userId Ha Hs1 Hne1 Hu)
        as (Hst2 & Hw2 & _).
      rewrite Hst2, Hw2, Hsteps1. fold result. unfold st1.
      split; [apply cascade_store_idempotent|].
      intros u b. apply cascade_writes_again.
Qed.

(** ** Rejected submissions *)

(** C7: a payload whose [userAnswers] is not an array is answered 400; an
    unknown scenario is answered 404, and so is a scenario without steps,
    with a message of its own.  In all three cases the handler returns
    before the cascade: it issues no write and the store is the one it
    started from. *)
Theorem submit_rejections (req : Request) (st : Store) :
  (Array_isArray (userAnswers req) = false ->
   submit req st =
   (json 400 (Message "userAnswers must be an array."), st, [])) /\
  (Array_isArray (userAnswers req) = true ->
   Repo.findById (params_id req) st = None ->
   submit req st = (json 404 (Message "Scenario not found"), st, [])) /\
  (forall scenario,
      Array_isArray (userAnswers req) = true ->
      Repo.findById (params_id req) st = Some scenario ->
      Repo.findByScenario (params_id req) st = [] ->
      submit req st =
      (json 404 (Message "No steps found for this scenario."), st, [])) /\
  json 404 (Message "Scenario not found") <>
  json 404 (Message "No steps found for this scenario.").
Proof.
  split; [|split; [|split]].
  - apply submit_not_array.
  - apply submit_no_scenario.
  - intros scenario. apply submit_no_steps.
  - discriminate.
Qed.

Lemma submit_rejections_witness :
  status (result_of (submit {| params_id := 1; userAnswers := VStr "ABCD";
                               user := None |} Demo.store)) = 400 /\
  status (result_of (submit (Demo.request 9 (Some 7) ["A"]) Demo.store))
    = 404 /\
  store_of (submit (Demo.request 9 (Some 7) ["A"]) Demo.store) = Demo.store.
Proof.
  destruct (submit_rejections
              {| params_id := 1; userAnswers := VStr "ABCD"; user := None |}
              Demo.store) as (H400 & _).
  destruct (submit_rejections (Demo.request 9 (Some 7) ["A"]) Demo.store)
    as (_ & H404 & _).
  rewrite (H400 eq_refl), (H404 eq_refl eq_refl). repeat split.
Defined.

(** ** Guests *)

Lemma requireAuth_no_header verifyAccess h :
  authorization h = None ->
  requireAuth verifyAccess h =
  inl (json 401 (AuthError "Missing or invalid authorization header")).
Proof. intros H. unfold requireAuth. rewrite H. reflexivity. Qed.

Lemma requireAuth_rejects verifyAccess h resp :
  requireAuth verifyAccess h = inl resp ->
  exists m, resp = json 401 (AuthError m).
Proof.
  unfold requireAuth.
  destruct (negb _ || negb _).
  - intros [= <-]. eauto.
  - destruct (verifyAccess _); [discriminate|]. intros [= <-]. eauto.
Qed.

Lemma requireAuth_accepts verifyAccess h req :
  requireAuth verifyAccess h = inr req ->
  exists token payload,
    nth_error (split_space (default "" (authorization h))) 0 = Some "Bearer" /\
    nth_error (split_space (default "" (authorization h))) 1 = Some token /\
    token <> "" /\
    verifyAccess token = Some payload /\
    req = {| params_id := http_params_id h;
             userAnswers := http_userAnswers h;
             user := Some {| uid := sub payload;
                             role := payload_role payload |} |}.
Proof.
  unfold requireAuth.
  destruct (nth_error (split_space (default "" (authorization h))) 0)
    as [scheme|]; [|discriminate].
  destruct (String.eqb_spec scheme "Bearer") as [->|]; [|discriminate].
  destruct (nth_error (split_space (default "" (authorization h))) 1)
    as [token|]; [|discriminate].
  destruct token as [|c token]; [discriminate|]. simpl.
  destruct (verifyAccess (String c token)) as [payload|] eqn:Hv;
    [|discriminate].
  intros [= <-]. exists (String c token), payload.
  repeat split; auto; discriminate.
Qed.

(** The allowance does not hold at the endpoint: without an
    Authorization header the route answers 401 before the handler runs. *)
Lemma guest_submissions_are_graded_refuted : ~ guest_submissions_are_graded.
Proof.
  intros H.
  destruct (H Demo.accept_any
              (Demo.http_request None 1 ["A"; "B"; "C"; "D"])
              Demo.store Demo.fire
              [AStr "A"; AStr "B"; AStr "C"; AStr "D"]
              eq_refl eq_refl eq_refl ltac:(discriminate))
    as (r & Hr & _).
  discriminate Hr.
Qed.

(** C9, as the code has it: when the handler runs without a usable user
    id on a scenario that has steps, the answers are graded and the 200
    response carries the computed score with none of [level_progress],
    [awarded_badge] and [updated_scenario]; nothing is written.  On the
    route the handler runs only behind [requireAuth]: a request it
    rejects, in particular one without an Authorization header, is
    answered 401 without grading and without a write, and a request it
    lets through carried a Bearer token that [verifyAccess] accepted. *)
Theorem guest_mode_behind_requireAuth :
  (forall req st scenario answers,
      userAnswers req = VArr answers ->
      Repo.findById (params_id req) st = Some scenario ->
      Repo.findByScenario (params_id req) st <> [] ->
      userId_of req = None ->
      exists r,
        submit req st = (json 200 (Result r), st, []) /\
        r_score r =
          round_percent
            (GradingSpec.correct_count
               (sort_steps (Repo.findByScenario (params_id req) st)) answers)
            (length (Repo.findByScenario (params_id req) st)) /\
        level_progress r = None /\
        awarded_badge r = None /\
        updated_scenario r = None) /\
  (forall verifyAccess h st resp,
      requireAuth verifyAccess h = inl resp ->
      (exists m, resp = json 401 (AuthError m)) /\
      post_submit verifyAccess h st = (resp, st, [])) /\
  (forall verifyAccess h,
      authorization h = None ->
      requireAuth verifyAccess h =
      inl (json 401 (AuthError "Missing or invalid authorization header"))) /\
  (forall verifyAccess h st req,
      requireAuth verifyAccess h = inr req ->
      post_submit verifyAccess h st = submit req st /\
      exists token payload,
        nth_error (split_space (default "" (authorization h))) 0
          = Some "Bearer" /\
        nth_error (split_space (default "" (authorization h))) 1
          = Some token /\
        verifyAccess token = Some payload /\
        user req = Some {| uid := sub payload;
                           role := payload_role payload |}).
Proof.
  split; [|split; [|split]].
  - intros req st scenario answers Ha Hs Hsteps Hu.
    eexists. split; [apply (submit_guest _ _ _ _ Ha Hs Hsteps Hu)|].
    unfold grade. simpl. rewrite count_correct_spec. auto.
  - intros verifyAccess h st resp Hr. split.
    + eapply requireAuth_rejects, Hr.
    + unfold post_submit. rewrite Hr. reflexivity.
  - apply requireAuth_no_header.
  - intros verifyAccess h st req Hr. split.
    + unfold post_submit. now rewrite Hr.
    + destruct (requireAuth_accepts _ _ _ Hr)
        as (token & payload & H0 & H1 & _ & Hv & ->).
      exists token, payload. auto.
Qed.

Lemma guest_mode_behind_requireAuth_witness :
  (exists r,
      submit (Demo.request 1 None ["A"; "B"; "C"; "D"]) Demo.store
        = (json 200 (Result r), Demo.store, []) /\
      r_score r = 100 /\ level_progress r = None /\ awarded_badge r = None) /\
  post_submit Demo.accept_any
    (Demo.http_request None 1 ["A"; "B"; "C"; "D"]) Demo.store
  = (json 401 (AuthError "Missing or invalid authorization header"),
     Demo.store, []).
Proof.
  destruct guest_mode_behind_requireAuth as (Hguest & Hreject & Hnone & _).
  split.
  - destruct (Hguest (Demo.request 1 None ["A"; "B"; "C"; "D"]) Demo.store
                Demo.fire [AStr "A"; AStr "B"; AStr "C"; AStr "D"]
                eq_refl eq_refl ltac:(discriminate) eq_refl)
      as (r & Hr & Hscore & Hp & Hb & _).
    exists r. split; [exact Hr|]. split; [|auto].
    rewrite Hscore. vm_compute. reflexivity.
  - apply (Hreject Demo.accept_any
             (Demo.http_request None 1 ["A"; "B"; "C"; "D"]) Demo.store).
    apply Hnone. reflexivity.
Defined.

(** Through the route the guest branch of the handler is reached only
    with an accepted token whose subject is falsy. *)
Example guest_branch_through_route :
  exists r,
    post_submit Demo.accept_anonymous
      (Demo.http_request (Some "Bearer t0k3n") 1 ["A"; "B"; "C"; "D"])
      Demo.store
    = (json 200 (Result r), Demo.store, []) /\
    r_score r = 100 /\ level_progress r = None.
Proof. eexists. vm_compute. repeat split. Qed.

(** ** Repeated completion on the sample data *)

(** Three perfect submissions in a row leave one UserBadge row, one
    Attempt row and the two UserLevel rows of the first run. *)
Example three_perfect_submissions :
  let req := Demo.request 1 (Some 7) ["A"; "B"; "C"; "D"] in
  let once := store_of (submit req Demo.store) in
  submit_all [req; req; req] Demo.store = once /\
  user_badges once = [{| ub_user_id := 7; ub_badge_id := 10 |}] /\
  writes_of (submit req once) =
    [WUpsertBestScore 7 1 100 true; WUpsertProgress 7 1 true true;
     WUpsertProgress 7 2 true false].
Proof. vm_compute. repeat split. Qed.

(** ** Further properties of grading *)

Lemma truthy_toUpperCase s : JS.truthy_string (JS.toUpperCase s) = JS.truthy_string s.
Proof. destruct s; reflexivity. Qed.

(** A step whose marker is null or empty is never counted. *)
Lemma answer_correct_unanswerable a step :
  answerable step = false -> GradingSpec.answer_correct a step = false.
Proof.
  unfold answerable, correct_of, GradingSpec.answer_correct.
  rewrite truthy_toUpperCase.
  destruct a as [[|[|c s]]|]; try reflexivity.
  destruct (correct_action step) as [[|d m]|]; try reflexivity; try discriminate.
Qed.

(** A step with a marker is matched by its own marker. *)
Lemma answer_correct_marker step :
  answerable step = true ->
  GradingSpec.answer_correct (Some (marker_answer step)) step = true.
Proof.
  unfold answerable, correct_of, GradingSpec.answer_correct, marker_answer.
  rewrite truthy_toUpperCase.
  destruct (correct_action step) as [[|d m]|]; try discriminate.
  intros _. rewrite equalsIgnoreCase_toUpperCase. apply String.eqb_refl.
Qed.

Lemma filter_all_length {A} (f : A -> bool) (l : list A) :
  (forall x, In x l -> f x = true) -> length (List.filter f l) = length l.
Proof.
  induction l as [|x l IH]; intros H; simpl; [reflexivity|].
  rewrite (H x (or_introl eq_refl)). simpl. f_equal. apply IH.
  intros y Hy. apply H. now right.
Qed.

Lemma filter_some_false_length {A} (f : A -> bool) (l : list A) x :
  In x l -> f x = false -> (length (List.filter f l) < length l)%nat.
Proof.
  induction l as [|y l IH]; intros Hin Hf; simpl; [contradiction|].
  destruct Hin as [->|Hin].
  - rewrite Hf. pose proof (filter_length_le f l). lia.
  - specialize (IH Hin Hf). destruct (f y); simpl; lia.
Qed.

Lemma correct_count_key sorted :
  forallb answerable sorted = true ->
  GradingSpec.correct_count sorted (map marker_answer sorted) = length sorted.
Proof.
  intros Hall. unfold GradingSpec.correct_count.
  rewrite filter_all_length; [apply length_seq|].
  intros i Hi. apply in_seq in Hi.
  destruct (nth_error sorted i) as [step|] eqn:E.
  - rewrite nth_error_map, E. simpl.
    apply answer_correct_marker.
    rewrite forallb_forall in Hall. apply Hall. eapply nth_error_In; eauto.
  - apply nth_error_None in E. lia.
Qed.

Lemma correct_count_unanswerable sorted answers step :
  In step sorted -> answerable step = false ->
  (GradingSpec.correct_count sorted answers < length sorted)%nat.
Proof.
  intros Hin Hun. unfold GradingSpec.correct_count.
  destruct (In_nth_error _ _ Hin) as [i Hi].
  assert (Hlt : (i < length sorted)%nat)
    by (apply nth_error_Some; congruence).
  pose proof (filter_some_false_length
    (fun i =>
       match nth_error sorted i with
       | Some step => GradingSpec.answer_correct (nth_error answers i) step
       | None => false
       end) (seq 0 (length sorted)) i) as H.
  rewrite length_seq in H. apply H.
  - apply in_seq. lia.
  - rewrite Hi. now apply answer_correct_unanswerable.
Qed.

Lemma forallb_perm {A} (f : A -> bool) (l l' : list A) :
  Permutation l l' -> forallb f l = forallb f l'.
Proof.
  intros H. induction H; simpl; try congruence.
  - now rewrite !andb_assoc, (andb_comm (f y)).
Qed.

(** ** Binary64: the two ends of the scale *)

(** A value divided by itself is exactly 1. *)
Lemma SFdiv_same m e :
  Zdigits2 (Zpos m) = 53 ->
  SFdiv prec emax (S754_finite false m e) (S754_finite false m e) =
  S754_finite false 4503599627370496 (-52).
Proof.
  intros Hd. unfold SFdiv, SFdiv_core_binary. rewrite Hd.
  assert (Ee : Z.min (fexp prec emax (53 + e - (53 + e))) (e - e) = -53)
    by (unfold fexp, emin, prec, emax; lia).
  rewrite Ee.
  replace (e - e - -53) with 53 by lia.
  rewrite Z.shiftl_mul_pow2 by lia.
  pose proof (Z_div_mod (Zpos m * 2 ^ 53) (Zpos m) ltac:(lia)) as Hdiv.
  destruct (Z.div_eucl (Zpos m * 2 ^ 53) (Zpos m)) as [q r].
  destruct Hdiv as [Hq Hr].
  assert (Eq : q = 2 ^ 53).
  { generalize dependent (2 ^ 53). intros P. intros.
    destruct (Z.lt_trichotomy q P) as [Hlt|[Heq'|Hgt]]; [|assumption|]; nia. }
  assert (Er : r = 0) by (rewrite Eq in Hq; lia).
  subst q r. rewrite new_location_0.
  vm_compute. reflexivity.
Qed.

(** All answers correct: [Math.round((t / t) * 100)] is 100. *)
Lemma round_percent_full (t : nat) :
  (1 <= t)%nat -> Z.of_nat t < 2 ^ 53 -> round_percent t t = 100.
Proof.
  intros Ht Hsize. unfold round_percent, JS.Math_round.
  rewrite FloatAxioms.mul_spec, FloatAxioms.div_spec, Number_100.
  destruct (Number_spec (Z.of_nat t) ltac:(lia)) as (m & e & E & _ & _ & Hd).
  rewrite E. unfold SF64mul, SF64div.
  rewrite (SFdiv_same m e Hd). vm_compute. reflexivity.
Qed.

(** No answer correct: [Math.round((0 / t) * 100)] is 0. *)
Lemma round_percent_none (t : nat) :
  (1 <= t)%nat -> Z.of_nat t < 2 ^ 53 -> round_percent 0 t = 0.
Proof.
  intros Ht Hsize. unfold round_percent, JS.Math_round.
  rewrite FloatAxioms.mul_spec, FloatAxioms.div_spec, Number_100.
  destruct (Number_spec (Z.of_nat t) ltac:(lia)) as (m & e & E & _ & _ & Hd).
  rewrite E. change (Z.of_nat 0) with 0. rewrite Number_zero. reflexivity.
Qed.

Lemma count_correct_le steps answers :
  (count_correct steps answers <= length steps)%nat.
Proof.
  rewrite count_correct_spec, <- (sort_steps_length steps).
  apply correct_count_le.
Qed.

(** X1: The full score and the perfect flag go together: an all-correct
    submission scores exactly 100 (any step count below [2^53]), and
    with fewer than 200 steps a score of 100 is only reached by an
    all-correct submission; likewise no correct answer scores 0, and
    with fewer than 200 steps a score of 0 means no answer was correct.
    The bound is sharp: with 200 steps, 199 correct answers already
    round to 100 and one correct answer rounds to 1. *)
Theorem score_ends_match_flag
    (scenario : Scenario) (scenarioId : Z)
    (steps : list ScenarioStep) (answers : list answer) :
  steps <> [] -> Z.of_nat (length steps) < 2 ^ 53 ->
  let result := grade scenario scenarioId steps answers in
  (r_all_correct result = true -> r_score result = 100) /\
  (count_correct steps answers = 0%nat -> r_score result = 0) /\
  ((length steps < checked_steps)%nat ->
     (r_score result = 100 -> r_all_correct result = true) /\
     (r_score result = 0 -> count_correct steps answers = 0%nat)) /\
  round_percent 199 200 = 100 /\ round_percent 1 200 = 1.
Proof.
  intros Hne Hsize. cbv zeta. unfold grade. cbn [r_score r_all_correct].
  assert (Hpos : (1 <= length steps)%nat)
    by (destruct steps; [congruence|simpl; lia]).
  pose proof (count_correct_le steps answers) as Hle.
  split; [|split; [|split; [intros Hsmall; split|split]]].
  - intros H. apply Nat.eqb_eq in H. rewrite H.
    now apply round_percent_full.
  - intros H. rewrite H. now apply round_percent_none.
  - intros H100. apply Nat.eqb_eq.
    pose proof (round_percent_closest (count_correct steps answers)
                  (length steps) ltac:(unfold checked_steps in *; lia) Hle)
      as Hc.
    unfold GradingSpec.closest_percent in Hc. rewrite H100 in Hc.
    unfold checked_steps in *. lia.
  - intros H0.
    pose proof (round_percent_closest (count_correct steps answers)
                  (length steps) ltac:(unfold checked_steps in *; lia) Hle)
      as Hc.
    unfold GradingSpec.closest_percent in Hc. rewrite H0 in Hc.
    unfold checked_steps in *. lia.
  - vm_compute. reflexivity.
  - vm_compute. reflexivity.
Qed.

Lemma score_ends_match_flag_witness :
  let result :=
    grade Demo.fire 1 (Repo.findByScenario 1 Demo.store)
          (map AStr ["a"; "b"; "c"; "d"]) in
  r_all_correct result = true /\ r_score result = 100.
Proof.
  cbv zeta. split; [vm_compute; reflexivity|].
  refine (proj1 (score_ends_match_flag Demo.fire 1
                   (Repo.findByScenario 1 Demo.store)
                   (map AStr ["a"; "b"; "c"; "d"]) _ _) _).
  - vm_compute. discriminate.
  - vm_compute. reflexivity.
  - vm_compute. reflexivity.
Defined.

(** X2: More correct answers never lower the score, and enough of them
    raise it: on the checked step counts the score is monotone in the
    number of correct answers. *)
Theorem score_monotone_in_correct_answers
    (scenario : Scenario) (scenarioId : Z)
    (steps : list ScenarioStep) (answers better : list answer) :
  steps <> [] -> (length steps <= checked_steps)%nat ->
  (count_correct steps answers <= count_correct steps better)%nat ->
  r_score (grade scenario scenarioId steps answers)
  <= r_score (grade scenario scenarioId steps better).
Proof.
  intros Hne Hsize Hle. unfold grade. cbn [r_score].
  assert (Hpos : (1 <= length steps)%nat)
    by (destruct steps; [congruence|simpl; lia]).
  pose proof (round_percent_closest (count_correct steps answers)
                (length steps) ltac:(lia) (count_correct_le _ _)) as H1.
  pose proof (round_percent_closest (count_correct steps better)
                (length steps) ltac:(lia) (count_correct_le _ _)) as H2.
  unfold GradingSpec.closest_percent in H1, H2.
  destruct (Nat.eq_dec (count_correct steps answers)
                       (count_correct steps better)) as [E|E].
  - rewrite E. lia.
  - assert (Hlt : (count_correct steps answers
                   < count_correct steps better)%nat) by lia.
    set (c1 := count_correct steps answers) in *.
    set (c2 := count_correct steps better) in *.
    set (s1 := round_percent c1 (length steps)) in *.
    set (s2 := round_percent c2 (length steps)) in *.
    set (t := length steps) in *.
    assert (Ht : 0 < Z.of_nat t) by lia.
    assert (H : (s1 - s2) * Z.of_nat t < Z.of_nat t) by lia.
    nia.
Qed.

Lemma score_monotone_in_correct_answers_witness :
  r_score (grade Demo.fire 1 (Repo.findByScenario 1 Demo.store)
             (map AStr ["a"; "x"; "c"; "x"]))
  <= r_score (grade Demo.fire 1 (Repo.findByScenario 1 Demo.store)
                (map AStr ["a"; "b"; "c"; "x"])).
Proof.
  apply score_monotone_in_correct_answers.
  - vm_compute. discriminate.
  - vm_compute. lia.
  - vm_compute. lia.
Defined.

(** X3: A scenario can be answered perfectly exactly when every one of its
    steps has a non-empty marker.  If so, answering each step with its
    own marker, in [step_order] order, is graded all correct; if some
    step has a null or empty [correct_action], no answer list ever is:
    the callback requires a non-empty answer, which an empty marker
    cannot equal. *)
Theorem perfect_iff_every_step_answerable
    (scenario : Scenario) (scenarioId : Z) (steps : list ScenarioStep) :
  (forallb answerable steps = true ->
   count_correct steps (answer_key steps) = length steps /\
   r_all_correct (grade scenario scenarioId steps (answer_key steps)) = true)
  /\
  (forallb answerable steps = false ->
   forall answers,
     (count_correct steps answers < length steps)%nat /\
     r_all_correct (grade scenario scenarioId steps answers) = false).
Proof.
  split.
  - intros Hall.
    assert (E : count_correct steps (answer_key steps) = length steps).
    { rewrite count_correct_spec. unfold answer_key.
      rewrite correct_count_key; [apply sort_steps_length|].
      now rewrite <- (forallb_perm _ _ _ (sort_steps_perm steps)). }
    split; [exact E|].
    unfold grade. cbn [r_all_correct]. rewrite E. apply Nat.eqb_refl.
  - intros Hsome answers.
    assert (Hex : exists step, In step steps /\ answerable step = false).
    { clear -Hsome. induction steps as [|s l IH]; [discriminate|].
      simpl in Hsome. destruct (answerable s) eqn:Es.
      - destruct (IH Hsome) as (x & Hx & Hf). exists x. split; [now right|auto].
      - exists s. split; [now left|auto]. }
    destruct Hex as (step & Hin & Hun).
    assert (Hlt : (count_correct steps answers < length steps)%nat).
    { rewrite count_correct_spec, <- (sort_steps_length steps).
      apply correct_count_unanswerable with (step := step); [|exact Hun].
      eapply Permutation_in; [apply sort_steps_perm|exact Hin]. }
    split; [exact Hlt|].
    unfold grade. cbn [r_all_correct]. apply Nat.eqb_neq. lia.
Qed.

(** ** Storage order *)

Lemma insert_step_comm a b l :
  step_order a <> step_order b ->
  insert_step a (insert_step b l) = insert_step b (insert_step a l).
Proof.
  intros Hab. induction l as [|h t IH]; simpl.
  - destruct (Z.leb_spec (step_order a) (step_order b));
      destruct (Z.leb_spec (step_order b) (step_order a));
      try reflexivity; lia.
  - destruct (Z.leb_spec (step_order b) (step_order h)) as [Hb|Hb];
      destruct (Z.leb_spec (step_order a) (step_order h)) as [Ha|Ha]; simpl.
    + destruct (Z.leb_spec (step_order a) (step_order b));
        destruct (Z.leb_spec (step_order b) (step_order a)); try lia;
        destruct (Z.leb_spec (step_order a) (step_order h));
        destruct (Z.leb_spec (step_order b) (step_order h));
        try lia; reflexivity.
    + destruct (Z.leb_spec (step_order a) (step_order b)); try lia.
      destruct (Z.leb_spec (step_order a) (step_order h)); try lia.
      destruct (Z.leb_spec (step_order b) (step_order h)); try lia.
      reflexivity.
    + destruct (Z.leb_spec (step_order b) (step_order a)); try lia.
      destruct (Z.leb_spec (step_order a) (step_order h)); try lia.
      destruct (Z.leb_spec (step_order b) (step_order h)); try lia.
      reflexivity.
    + destruct (Z.leb_spec (step_order a) (step_order h)); try lia.
      destruct (Z.leb_spec (step_order b) (step_order h)); try lia.
      now rewrite IH.
Qed.

Lemma sort_steps_perm_eq steps steps' :
  Permutation steps steps' -> List.NoDup (map step_order steps) ->
  sort_steps steps = sort_steps steps'.
Proof.
  intros Hp. induction Hp as [|x l l' Hp IH|x y l|l l' l'' H1 IH1 H2 IH2];
    intros Hnd.
  - reflexivity.
  - simpl. rewrite IH; [reflexivity|]. now inversion Hnd.
  - simpl. apply insert_step_comm.
    simpl in Hnd. inversion Hnd as [|? ? Hnin _]; subst.
    intros E. apply Hnin. left. now symmetry.
  - rewrite IH1 by assumption. apply IH2.
    eapply Permutation_NoDup; [apply Permutation_map, H1|exact Hnd].
Qed.

(** X4: When the steps of a scenario carry distinct [step_order] values,
    grading does not depend on the order in which storage hands the rows
    back: any rearrangement of the rows gives the same result object. *)
Theorem grading_independent_of_storage_order
    (scenario : Scenario) (scenarioId : Z)
    (steps steps' : list ScenarioStep) (answers : list answer) :
  Permutation steps steps' ->
  List.NoDup (map step_order steps) ->
  sort_steps steps = sort_steps steps' /\
  grade scenario scenarioId steps answers
  = grade scenario scenarioId steps' answers.
Proof.
  intros Hp Hnd.
  pose proof (sort_steps_perm_eq steps steps' Hp Hnd) as E.
  split; [exact E|].
  unfold grade, count_correct.
  now rewrite E, (Permutation_length Hp).
Qed.

Lemma grading_independent_of_storage_order_witness :
  grade Demo.fire 1 (Repo.findByScenario 1 Demo.store)
        (map AStr ["a"; "b"; "x"; "d"])
  = grade Demo.fire 1 (rev (Repo.findByScenario 1 Demo.store))
          (map AStr ["a"; "b"; "x"; "d"]).
Proof.
  apply grading_independent_of_storage_order.
  - apply Permutation_rev.
  - vm_compute. repeat constructor; simpl; intuition discriminate.
Defined.

(** X18: Steps that share a [step_order] are graded in storage order:
    the sort is stable, so among the steps of one order the sorted list
    keeps the stored sequence.  For such scenarios the order of the rows
    does matter: two rows of equal order, swapped, can turn a fully
    correct submission into a fully wrong one. *)
Theorem equal_orders_keep_storage_order
    (steps : list ScenarioStep) (k : Z) :
  List.filter (fun s => step_order s =? k) (sort_steps steps)
  = List.filter (fun s => step_order s =? k) steps /\
  exists a b answers,
    step_order a = step_order b /\
    count_correct [a; b] answers = 2%nat /\
    count_correct [b; a] answers = 0%nat.
Proof.
  split; [apply sort_steps_stable|].
  exists (Demo.step 1 1 1 "A"), (Demo.step 2 1 1 "B"), [AStr "A"; AStr "B"].
  vm_compute. repeat split; reflexivity.
Qed.

(** ** Level completion, scenario by scenario *)

Lemma findById_some id st sc :
  Repo.findById id st = Some sc -> In sc (scenarios st) /\ scenario_id sc = id.
Proof.
  unfold Repo.findById. intros H. apply find_some in H as [Hin He].
  split; [assumption|]. now apply Z.eqb_eq.
Qed.

Lemma findById_unique st sc :
  List.NoDup (map scenario_id (scenarios st)) -> In sc (scenarios st) ->
  Repo.findById (scenario_id sc) st = Some sc.
Proof.
  unfold Repo.findById. induction (scenarios st) as [|h t IH];
    intros Hnd Hin; [contradiction|].
  simpl in *. inversion Hnd as [|? ? Hnin Ht]; subst.
  destruct (Z.eqb_spec (scenario_id h) (scenario_id sc)) as [E|E].
  - destruct Hin as [->|Hin]; [reflexivity|].
    exfalso. apply Hnin. rewrite E. now apply in_map.
  - destruct Hin as [->|Hin]; [congruence|]. now apply IH.
Qed.

Lemma perfect_row_spec user lvl st u s a :
  In (u, s, a) (perfect_rows user lvl st) <->
  u = user /\ attempts st !! (user, s) = Some a /\ all_correct a = true /\
  exists sc, Repo.findById s st = Some sc /\ level_id sc = lvl.
Proof.
  unfold perfect_rows. rewrite filter_In, <- list_elem_of_In,
    elem_of_map_to_list.
  unfold Repo.perfect_in_level. split.
  - intros [Hl Hp]. apply andb_prop in Hp as [Hp Hf].
    apply andb_prop in Hp as [Hu Hac]. apply Z.eqb_eq in Hu. subst u.
    repeat split; try assumption.
    destruct (Repo.findById s st) as [sc|]; [|discriminate].
    exists sc. split; [reflexivity|]. now apply Z.eqb_eq.
  - intros (-> & Hl & Hac & sc & Hf & Hlvl).
    split; [assumption|]. rewrite Z.eqb_refl, Hac, Hf. simpl.
    now apply Z.eqb_eq.
Qed.

Lemma perfect_rows_NoDup user lvl st :
  List.NoDup (map (scenario_of_row st) (perfect_rows user lvl st)).
Proof.
  apply NoDup_map_NoDup_ForallPairs.
  - intros [[u1 s1] a1] [[u2 s2] a2] H1 H2 E.
    apply perfect_row_spec in H1 as (-> & Hl1 & _ & sc1 & Hf1 & _).
    apply perfect_row_spec in H2 as (-> & Hl2 & _ & sc2 & Hf2 & _).
    unfold scenario_of_row in E. simpl in E.
    assert (s1 = s2).
    { pose proof (findById_some _ _ _ Hf1) as [_ I1].
      pose proof (findById_some _ _ _ Hf2) as [_ I2].
      rewrite Hf1, Hf2 in E. injection E as ->. congruence. }
    subst s2. congruence.
  - unfold perfect_rows. apply List.NoDup_filter, NoDup_ListNoDup,
      NoDup_map_to_list.
Qed.

Lemma perfect_rows_incl user lvl st :
  incl (map (scenario_of_row st) (perfect_rows user lvl st))
       (map Some (scenarios_of_level lvl st)).
Proof.
  intros o Ho. apply in_map_iff in Ho as ([[u s] a] & <- & Hrow).
  apply perfect_row_spec in Hrow as (_ & _ & _ & sc & Hf & Hlvl).
  unfold scenario_of_row. simpl. rewrite Hf. apply in_map.
  unfold scenarios_of_level. apply filter_In. split.
  - now apply findById_some in Hf.
  - now apply Z.eqb_eq.
Qed.

Lemma counts_as_lengths user lvl st :
  Repo.countPerfectByUserInLevel user lvl st
  = Z.of_nat (length (map (scenario_of_row st) (perfect_rows user lvl st))) /\
  Repo.countByLevel lvl st
  = Z.of_nat (length (map (@Some Scenario) (scenarios_of_level lvl st))).
Proof. rewrite !length_map. split; reflexivity. Qed.

(** The perfect count never exceeds the number of scenarios. *)
Lemma countPerfect_le_total user lvl st :
  Repo.countPerfectByUserInLevel user lvl st <= Repo.countByLevel lvl st.
Proof.
  destruct (counts_as_lengths user lvl st) as [-> ->].
  apply inj_le, NoDup_incl_length;
    [apply perfect_rows_NoDup|apply perfect_rows_incl].
Qed.

(** Equal counts: every scenario of the level is behind a perfect
    attempt of the user. *)
Lemma equal_counts_all_perfect user lvl st sc :
  Repo.countPerfectByUserInLevel user lvl st = Repo.countByLevel lvl st ->
  In sc (scenarios_of_level lvl st) -> holds_perfect user st sc.
Proof.
  destruct (counts_as_lengths user lvl st) as [-> ->].
  intros E Hin.
  assert (Hincl : incl (map Some (scenarios_of_level lvl st))
                       (map (scenario_of_row st) (perfect_rows user lvl st))).
  { apply NoDup_length_incl;
      [apply perfect_rows_NoDup|lia|apply perfect_rows_incl]. }
  specialize (Hincl (Some sc) (in_map _ _ _ Hin)).
  apply in_map_iff in Hincl as ([[u s] a] & Hg & Hrow).
  apply perfect_row_spec in Hrow as (_ & Hl & Hac & _).
  unfold scenario_of_row in Hg. simpl in Hg.
  apply findById_some in Hg as [_ Hid]. subst s.
  exists a. now split.
Qed.

(** With distinct scenario ids the converse holds. *)
Lemma all_perfect_equal_counts user lvl st :
  List.NoDup (map scenario_id (scenarios st)) ->
  (forall sc, In sc (scenarios_of_level lvl st) -> holds_perfect user st sc) ->
  Repo.countPerfectByUserInLevel user lvl st = Repo.countByLevel lvl st.
Proof.
  intros Hnd Hall.
  apply Z.le_antisymm; [apply countPerfect_le_total|].
  destruct (counts_as_lengths user lvl st) as [-> ->].
  apply inj_le, NoDup_incl_length.
  - apply NoDup_map_NoDup_ForallPairs; [intros x y _ _ H; congruence|].
    unfold scenarios_of_level. apply List.NoDup_filter.
    eapply NoDup_map_inv; exact Hnd.
  - intros o Ho. apply in_map_iff in Ho as (sc & <- & Hin).
    destruct (Hall sc Hin) as (a & Hl & Hac).
    unfold scenarios_of_level in Hin. apply filter_In in Hin as [Hin Hlvl].
    apply in_map_iff. exists (user, scenario_id sc, a). split.
    + unfold scenario_of_row. simpl. now apply findById_unique.
    + apply perfect_row_spec. repeat split; try assumption.
      exists sc. split; [now apply findById_unique|now apply Z.eqb_eq].
Qed.

(** An imperfect attempt at a scenario of the level keeps the perfect
    count strictly below the total. *)
Lemma countPerfect_lt_total user lvl st sid sc a :
  Repo.findById sid st = Some sc -> level_id sc = lvl ->
  attempts st !! (user, sid) = Some a -> all_correct a = false ->
  Repo.countPerfectByUserInLevel user lvl st < Repo.countByLevel lvl st.
Proof.
  intros Hf Hlvl Hl Hac.
  pose proof (countPerfect_le_total user lvl st) as Hle.
  destruct (Z.eq_dec (Repo.countPerfectByUserInLevel user lvl st)
                     (Repo.countByLevel lvl st)) as [E|E]; [|lia].
  exfalso.
  assert (Hin : In sc (scenarios_of_level lvl st)).
  { unfold scenarios_of_level. apply filter_In. split.
    - now apply findById_some in Hf.
    - now apply Z.eqb_eq. }
  destruct (equal_counts_all_perfect user lvl st sc E Hin) as (a' & Hl' & Hac').
  apply findById_some in Hf as [_ Hid]. rewrite Hid in Hl'. congruence.
Qed.

Lemma cascade_store_current_row userId scenario scenarioId result st :
  user_levels (cascade_store userId scenario scenarioId result st)
    !! (userId, level_id scenario)
  = Some {| unlocked := true;
            completed :=
              completedThisLevel userId scenario scenarioId result st |}.
Proof.
  unfold cascade_store. cbn [user_levels].
  destruct (completedThisLevel userId scenario scenarioId result st
            && (level_id scenario <? max_level)).
  - rewrite lookup_insert_ne by (intros H; inversion H; lia).
    apply lookup_insert_eq.
  - apply lookup_insert_eq.
Qed.

Lemma cascade_store_counts userId scenario scenarioId result st lvl :
  Repo.countByLevel lvl (cascade_store userId scenario scenarioId result st)
  = Repo.countByLevel lvl (after_best_score userId scenarioId result st) /\
  Repo.countPerfectByUserInLevel userId lvl
    (cascade_store userId scenario scenarioId result st)
  = Repo.countPerfectByUserInLevel userId lvl
      (after_best_score userId scenarioId result st).
Proof. apply counts_ext; reflexivity. Qed.

(** X5: What the completed flag of a recorded submission means, read on the
    rows the submission leaves behind: the UserLevel row of the
    scenario's level is marked completed only if the user holds a
    perfect attempt at every scenario of that level; when the scenario
    ids are distinct also conversely.  The flag is a statement about the
    attempts as they are now, not about any earlier completion. *)
Theorem completed_means_every_scenario_perfect
    (req : Request) (st : Store) (scenario : Scenario)
    (answers : list answer) (userId : Z) :
  userAnswers req = VArr answers ->
  Repo.findById (params_id req) st = Some scenario ->
  Repo.findByScenario (params_id req) st <> [] ->
  userId_of req = Some userId ->
  let st' := store_of (submit req st) in
  let lvl := level_id scenario in
  exists c,
    user_levels st' !! (userId, lvl)
      = Some {| unlocked := true; completed := c |} /\
    (c = true ->
     forall sc, In sc (scenarios_of_level lvl st') ->
                holds_perfect userId st' sc) /\
    (List.NoDup (map scenario_id (scenarios st)) ->
     (forall sc, In sc (scenarios_of_level lvl st') ->
                 holds_perfect userId st' sc) ->
     c = true).
Proof.
  intros Ha Hs Hsteps Hu. cbv zeta.
  destruct (submit_recorded req st scenario answers userId Ha Hs Hsteps Hu)
    as (Hst & _ & _).
  cbv zeta in Hst. rewrite Hst.
  set (result := grade scenario (params_id req)
                   (Repo.findByScenario (params_id req) st) answers) in *.
  set (st' := cascade_store userId scenario (params_id req) result st).
  exists (completedThisLevel userId scenario (params_id req) result st).
  split; [apply cascade_store_current_row|].
  destruct (cascade_store_counts userId scenario (params_id req) result st
              (level_id scenario)) as [Et Ep].
  fold st' in Et, Ep.
  unfold completedThisLevel, completed_flag. rewrite <- Et, <- Ep.
  split.
  - intros Hc sc Hin. apply andb_prop in Hc as [_ Hc].
    apply Z.eqb_eq in Hc.
    now apply (equal_counts_all_perfect userId (level_id scenario) st' sc).
  - intros Hnd Hall. apply andb_true_intro. split.
    + apply Z.ltb_lt.
      assert (Hin : In scenario (scenarios_of_level (level_id scenario) st')).
      { unfold scenarios_of_level. apply filter_In. split.
        - now apply findById_some in Hs.
        - apply Z.eqb_refl. }
      unfold Repo.countByLevel. fold (scenarios_of_level (level_id scenario) st').
      destruct (scenarios_of_level (level_id scenario) st');
        [contradiction|simpl; lia].
    + apply Z.eqb_eq. now apply all_perfect_equal_counts.
Qed.

Lemma completed_means_every_scenario_perfect_witness :
  let req := Demo.request 1 (Some 7) ["a"; "b"; "c"; "d"] in
  exists c,
    user_levels (store_of (submit req Demo.store)) !! (7, 1)
      = Some {| unlocked := true; completed := c |} /\
    (c = true ->
     forall sc,
       In sc (scenarios_of_level 1 (store_of (submit req Demo.store))) ->
       holds_perfect 7 (store_of (submit req Demo.store)) sc) /\
    (List.NoDup (map scenario_id (scenarios Demo.store)) ->
     (forall sc,
        In sc (scenarios_of_level 1 (store_of (submit req Demo.store))) ->
        holds_perfect 7 (store_of (submit req Demo.store)) sc) ->
     c = true).
Proof.
  cbv zeta.
  apply (completed_means_every_scenario_perfect
           (Demo.request 1 (Some 7) ["a"; "b"; "c"; "d"]) Demo.store
           Demo.fire (map AStr ["a"; "b"; "c"; "d"]) 7).
  - reflexivity.
  - reflexivity.
  - vm_compute. discriminate.
  - reflexivity.
Defined.

(** X6: A submission that is not all correct never completes a level: the
    UserLevel row of the scenario's level is written with
    [completed = false] whatever it held before, the response reports
    the level as incomplete with fewer perfect scenarios than scenarios,
    and neither a next-level unlock nor a badge row is written. *)
Theorem imperfect_submission_leaves_level_incomplete
    (req : Request) (st : Store) (scenario : Scenario)
    (answers : list answer) (userId : Z) :
  userAnswers req = VArr answers ->
  Repo.findById (params_id req) st = Some scenario ->
  Repo.findByScenario (params_id req) st <> [] ->
  userId_of req = Some userId ->
  count_correct (Repo.findByScenario (params_id req) st) answers
    <> length (Repo.findByScenario (params_id req) st) ->
  let st' := store_of (submit req st) in
  let lvl := level_id scenario in
  user_levels st' !! (userId, lvl)
    = Some {| unlocked := true; completed := false |} /\
  (forall l, l <> lvl ->
             user_levels st' !! (userId, l) = user_levels st !! (userId, l)) /\
  user_badges st' = user_badges st /\
  exists r perfect total,
    result_of (submit req st) = json 200 (Result r) /\
    r_all_correct r = false /\
    level_progress r = Some (LevelIncomplete lvl perfect total) /\
    perfect < total /\
    awarded_badge r = None.
Proof.
  intros Ha Hs Hsteps Hu Hwrong. cbv zeta.
  destruct (submit_recorded req st scenario answers userId Ha Hs Hsteps Hu)
    as (Hst & _ & r & Hr & _ & Hac & Hlp & Haw).
  cbv zeta in Hst, Hac, Hlp, Haw. rewrite Hst.
  set (result := grade scenario (params_id req)
                   (Repo.findByScenario (params_id req) st) answers) in *.
  assert (Hflag : r_all_correct result = false).
  { unfold result, grade. cbn [r_all_correct]. now apply Nat.eqb_neq. }
  set (st1 := after_best_score userId (params_id req) result st).
  assert (Hlt : Repo.countPerfectByUserInLevel userId (level_id scenario) st1
                < Repo.countByLevel (level_id scenario) st1).
  { apply (countPerfect_lt_total userId (level_id scenario) st1
             (params_id req) scenario
             {| score := r_score result; all_correct := r_all_correct result |}).
    - exact Hs.
    - reflexivity.
    - unfold st1, after_best_score, Repo.upsertBestScore. cbn [attempts].
      apply lookup_insert_eq.
    - exact Hflag. }
  assert (Hc : completedThisLevel userId scenario (params_id req) result st
               = false).
  { unfold completedThisLevel, completed_flag. fold st1.
    apply andb_false_intro2. apply Z.eqb_neq. lia. }
  split; [|split; [|split]].
  - rewrite cascade_store_current_row. now rewrite Hc.
  - intros l Hl. unfold cascade_store. cbn [user_levels]. rewrite Hc.
    cbn [andb]. apply lookup_insert_ne. intros H. inversion H. congruence.
  - unfold cascade_store. cbn [user_badges]. now rewrite Hc.
  - exists r, (Repo.countPerfectByUserInLevel userId (level_id scenario) st1),
      (Repo.countByLevel (level_id scenario) st1).
    split; [exact Hr|]. split; [now rewrite Hac|].
    split; [|split; [exact Hlt|]].
    + rewrite Hlp. unfold cascade_progress. now rewrite Hc.
    + rewrite Haw. unfold cascade_award. now rewrite Hc.
Qed.

Lemma imperfect_submission_leaves_level_incomplete_witness :
  let req := Demo.request 1 (Some 7) ["a"; "b"; "x"; "d"] in
  let st := store_of (submit (Demo.request 1 (Some 7) ["a"; "b"; "c"; "d"])
                             Demo.store) in
  user_levels st !! (7, 1) = Some {| unlocked := true; completed := true |} /\
  user_levels (store_of (submit req st)) !! (7, 1)
    = Some {| unlocked := true; completed := false |}.
Proof.
  cbv zeta. split; [vm_compute; reflexivity|].
  refine (proj1 (imperfect_submission_leaves_level_incomplete
                   (Demo.request 1 (Some 7) ["a"; "b"; "x"; "d"])
                   (store_of (submit (Demo.request 1 (Some 7)
                                        ["a"; "b"; "c"; "d"]) Demo.store))
                   Demo.fire (map AStr ["a"; "b"; "x"; "d"]) 7 _ _ _ _ _)).
  - reflexivity.
  - vm_compute. reflexivity.
  - vm_compute. discriminate.
  - reflexivity.
  - vm_compute. discriminate.
Defined.

(** ** What a submission leaves alone *)

(** X7: A submission never touches the content tables, and the only rows it
    writes belong to the submitting user: an Attempt row changes only at
    (user, submitted scenario), UserLevel rows change only for that
    user, and the UserBadge table only grows, by rows of that user. *)
Theorem submit_writes_only_own_rows (req : Request) (st : Store) :
  let st' := store_of (submit req st) in
  scenarios st' = scenarios st /\
  scenario_steps st' = scenario_steps st /\
  badges st' = badges st /\
  (forall u s, attempts st' !! (u, s) <> attempts st !! (u, s) ->
               userId_of req = Some u /\ s = params_id req) /\
  (forall u l, user_levels st' !! (u, l) <> user_levels st !! (u, l) ->
               userId_of req = Some u) /\
  (exists rows, user_badges st' = user_badges st ++ rows /\
                forall row, In row rows ->
                            userId_of req = Some (ub_user_id row)).
Proof.
  cbv zeta.
  destruct (submit_cases req st)
    as [[-> _]|(scenario & answers & userId & Ha & Hs & Hsteps & Hu)].
  - repeat split; try congruence.
    exists []. split; [now rewrite app_nil_r|]. intros row [].
  - destruct (submit_recorded req st scenario answers userId Ha Hs Hsteps Hu)
      as (-> & _).
    unfold cascade_store.
    cbn [scenarios scenario_steps badges attempts user_levels user_badges].
    repeat split.
    + destruct (decide ((u, s) = (userId, params_id req))) as [E|E].
      * inversion E. now rewrite Hu.
      * rewrite lookup_insert_ne in H by congruence. congruence.
    + destruct (decide ((u, s) = (userId, params_id req))) as [E|E].
      * now inversion E.
      * rewrite lookup_insert_ne in H by congruence. congruence.
    + intros u l H. rewrite Hu. f_equal.
      destruct (Z.eq_dec u userId) as [E|E]; [now symmetry|].
      exfalso. apply H.
      destruct (_ && _);
        rewrite ?lookup_insert_ne by (intros X; inversion X; congruence);
        reflexivity.
    + destruct (completedThisLevel _ _ _ _ _).
      * eexists. split; [reflexivity|].
        intros row Hrow. rewrite Hu.
        destruct (badge_to_award userId scenario st); simpl in Hrow;
          [destruct Hrow as [<-|[]]; reflexivity|contradiction].
      * exists []. split; [now rewrite app_nil_r|]. intros row [].
Qed.

Lemma same_but_progress_refl st : same_but_progress st st.
Proof. repeat split. Qed.

Lemma award_badge_same userId scenario result a b :
  same_but_progress a b ->
  result_of (award_badge userId scenario result a)
  = result_of (award_badge userId scenario result b) /\
  writes_of (award_badge userId scenario result a)
  = writes_of (award_badge userId scenario result b) /\
  same_but_progress (store_of (award_badge userId scenario result a))
                    (store_of (award_badge userId scenario result b)).
Proof.
  intros (Hs & Hst & Hb & Ha & Hub). rewrite !award_badge_run.
  unfold Repo.findByLevel, Repo.findByUserAndBadge. rewrite Hb, Hub.
  destruct (List.find _ (badges b)) as [badge|];
    [destruct (List.find _ (user_badges b))|];
    unfold result_of, store_of, writes_of, same_but_progress, Repo.create;
    simpl; rewrite ?Hub; auto 10.
Qed.

Lemma after_level_upsert_same userId scenario c p t result a b :
  same_but_progress a b ->
  result_of (after_level_upsert userId scenario c p t result a)
  = result_of (after_level_upsert userId scenario c p t result b) /\
  writes_of (after_level_upsert userId scenario c p t result a)
  = writes_of (after_level_upsert userId scenario c p t result b) /\
  same_but_progress
    (store_of (after_level_upsert userId scenario c p t result a))
    (store_of (after_level_upsert userId scenario c p t result b)).
Proof.
  intros H. rewrite !after_level_upsert_run. destruct c.
  - cbv zeta.
    assert (H' : same_but_progress (after_unlock userId scenario a)
                                   (after_unlock userId scenario b)).
    { unfold after_unlock. destruct (level_id scenario <? max_level);
        [|exact H].
      destruct H as (? & ? & ? & ? & ?). repeat split; assumption. }
    match goal with
    | |- context [award_badge ?u ?s ?r (after_unlock _ _ a)] =>
        destruct (award_badge_same u s r _ _ H') as (E1 & E2 & E3)
    end.
    unfold result_of, store_of, writes_of in *. simpl in *.
    rewrite E1, E2. auto.
  - unfold result_of, store_of, writes_of. simpl. auto.
Qed.

Lemma recordSubmission_same userId scenario scenarioId result a b :
  same_but_progress a b ->
  result_of (recordSubmission userId scenario scenarioId result a)
  = result_of (recordSubmission userId scenario scenarioId result b) /\
  writes_of (recordSubmission userId scenario scenarioId result a)
  = writes_of (recordSubmission userId scenario scenarioId result b) /\
  same_but_progress
    (store_of (recordSubmission userId scenario scenarioId result a))
    (store_of (recordSubmission userId scenario scenarioId result b)).
Proof.
  intros H. rewrite !recordSubmission_run. cbv zeta.
  assert (H1 : same_but_progress (after_best_score userId scenarioId result a)
                                 (after_best_score userId scenarioId result b)).
  { destruct H as (? & ? & ? & Ha & ?). repeat split; try assumption.
    unfold after_best_score, Repo.upsertBestScore. cbn [attempts].
    now rewrite Ha. }
  destruct (counts_ext (after_best_score userId scenarioId result a)
              (after_best_score userId scenarioId result b)
              userId (level_id scenario))
    as [Et Ep]; [apply H1|apply H1|].
  unfold completed_flag. rewrite Et, Ep.
  set (c := (0 <? _) && _).
  assert (H2 : same_but_progress
                 (Repo.upsertProgress userId (level_id scenario) true c
                    (after_best_score userId scenarioId result a))
                 (Repo.upsertProgress userId (level_id scenario) true c
                    (after_best_score userId scenarioId result b))).
  { destruct H1 as (? & ? & ? & ? & ?). repeat split; assumption. }
  match goal with
  | |- context [after_level_upsert ?u ?s ?c ?p ?t ?r
                  (Repo.upsertProgress _ _ _ _ (after_best_score _ _ _ a))] =>
      destruct (after_level_upsert_same u s c p t r _ _ H2) as (E1 & E2 & E3)
  end.
  unfold result_of, store_of, writes_of in *. simpl in *.
  rewrite E1, E2. repeat split; try apply E3.
  unfold Repo.findById. destruct E3 as (-> & _). reflexivity.
Qed.

(** X8: The handler never consults the progress table: it does not check
    that the scenario's level is unlocked for the user.  Whatever the
    UserLevel rows are, the same request gets the same response and
    issues the same writes, and the resulting stores still agree on
    every other table. *)
Theorem submit_ignores_progress_table
    (req : Request) (st : Store) (m : gmap (Z * Z) UserLevel) :
  result_of (submit req (with_progress m st)) = result_of (submit req st) /\
  writes_of (submit req (with_progress m st)) = writes_of (submit req st) /\
  same_but_progress (store_of (submit req (with_progress m st)))
                    (store_of (submit req st)).
Proof.
  assert (H : same_but_progress (with_progress m st) st) by (repeat split).
  destruct (Array_isArray (userAnswers req)) eqn:Ha.
  - destruct (Repo.findById (params_id req) st) as [scenario|] eqn:Hs.
    + destruct (Repo.findByScenario (params_id req) st) as [|s0 l] eqn:Hst.
      * rewrite (submit_no_steps req st scenario Ha Hs Hst).
        rewrite (submit_no_steps req (with_progress m st) scenario Ha Hs Hst).
        auto.
      * destruct (userAnswers req) as [| | | | | |answers] eqn:Hv;
          try discriminate Ha.
        assert (Hne : Repo.findByScenario (params_id req) st <> [])
          by (rewrite Hst; discriminate).
        rewrite (submit_graded req st scenario answers Hv Hs Hne).
        rewrite (submit_graded req (with_progress m st) scenario answers
                   Hv Hs Hne).
        cbv zeta.
        change (Repo.findByScenario (params_id req) (with_progress m st))
          with (Repo.findByScenario (params_id req) st).
        destruct (userId_of req) as [u|]; [|auto].
        match goal with
        | |- context [recordSubmission ?u ?s ?i ?r st] =>
            destruct (recordSubmission_same u s i r _ _ H) as (E1 & E2 & E3)
        end.
        unfold result_of, store_of, writes_of in *. simpl in *.
        rewrite E1, E2. auto.
    + rewrite (submit_no_scenario req st Ha Hs).
      rewrite (submit_no_scenario req (with_progress m st) Ha Hs). auto.
  - rewrite !(submit_not_array req _ Ha). auto.
Qed.

(** ** The authorization header *)

Lemma append_empty_r (s : string) : (s ++ "")%string = s.
Proof.
  induction s as [|c s IH]; [reflexivity|].
  change (String c (s ++ "")%string = String c s). now f_equal.
Qed.

Lemma split_space_no_space a :
  no_space a = true -> split_space a = [a].
Proof.
  induction a as [|c a IH]; simpl; [reflexivity|].
  intros H. apply andb_prop in H as [Hc Ha].
  apply negb_true_iff in Hc. rewrite Hc, (IH Ha). reflexivity.
Qed.

Lemma split_space_app a rest :
  no_space a = true ->
  split_space (a ++ String " "%char rest)%string = a :: split_space rest.
Proof.
  induction a as [|c a IH]; [reflexivity|].
  cbn [no_space]. intros H. apply andb_prop in H as [Hc Ha].
  apply negb_true_iff in Hc.
  change (split_space (String c (a ++ String " "%char rest)%string)
          = String c a :: split_space rest).
  cbn [split_space]. rewrite Hc, (IH Ha). reflexivity.
Qed.

(** The first part is the text up to the first space. *)
Lemma split_space_cases s :
  exists a,
    no_space a = true /\
    ((s = a /\ split_space s = [a]) \/
     (exists rest, s = (a ++ String " "%char rest)%string /\
                   split_space s = a :: split_space rest)).
Proof.
  induction s as [|c s IH].
  - exists "". split; [reflexivity|]. left. split; reflexivity.
  - simpl. destruct (Ascii.eqb_spec c " "%char) as [->|Hc].
    + exists "". split; [reflexivity|]. right. exists s. split; reflexivity.
    + destruct IH as (a & Ha & [[-> E]|(rest & -> & E)]).
      * exists (String c a). split.
        -- simpl. rewrite Ha.
           destruct (Ascii.eqb_spec c " "%char); [contradiction|reflexivity].
        -- left. rewrite E. split; reflexivity.
      * exists (String c a). split.
        -- simpl. rewrite Ha.
           destruct (Ascii.eqb_spec c " "%char); [contradiction|reflexivity].
        -- right. exists rest. rewrite E. split; reflexivity.
Qed.

Lemma split_space_nonempty s : split_space s <> [].
Proof.
  destruct (split_space_cases s) as (a & _ & [[_ E]|(rest & _ & E)]);
    rewrite E; discriminate.
Qed.

(** Splitting at the spaces loses nothing: joining the parts with single
    spaces gives the header back, and no part holds a space. *)
Lemma split_space_join s :
  join_space (split_space s) = s /\
  Forall (fun p => no_space p = true) (split_space s).
Proof.
  induction s as [|c s [IHj IHf]].
  - split; [reflexivity|]. repeat constructor.
  - pose proof (split_space_nonempty s) as Hne.
    cbn [split_space].
    destruct (split_space s) as [|p ps] eqn:E; [congruence|].
    destruct (Ascii.eqb_spec c " "%char) as [->|Hc].
    + split.
      * change (join_space ("" :: p :: ps))
          with (String " "%char (join_space (p :: ps))).
        now rewrite IHj.
      * constructor; [reflexivity|assumption].
    + assert (Hp : no_space p = true) by (inversion IHf; assumption).
      assert (Hps : Forall (fun p => no_space p = true) ps)
        by (inversion IHf; assumption).
      split.
      * destruct ps as [|q qs]; cbn [join_space] in *;
          [now subst|].
        rewrite <- IHj. reflexivity.
      * constructor; [|assumption]. cbn [no_space]. rewrite Hp.
        destruct (Ascii.eqb_spec c " "%char); [contradiction|reflexivity].
Qed.

Lemma requireAuth_header_spec
    (verifyAccess : string -> option JwtPayload)
    (h : HttpRequest) (req : Request) :
  requireAuth verifyAccess h = inr req <->
  well_formed_bearer verifyAccess h req.
Proof.
  unfold requireAuth, well_formed_bearer. split.
  - set (header := default "" (authorization h)).
    assert (Hh : header <> "" -> authorization h = Some header).
    { unfold header. destruct (authorization h); simpl; congruence. }
    destruct (split_space_cases header)
      as (a & Ha & [[Es E]|(rest1 & Es & E)]); rewrite E.
    + simpl. rewrite orb_true_r. discriminate.
    + cbn [nth_error].
      destruct (String.eqb_spec a "Bearer") as [->|Hne];
        [|simpl; discriminate].
      cbn [negb orb].
      destruct (split_space_cases rest1)
        as (b & Hb & [[Er E1]|(rest2 & Er & E1)]); rewrite E1;
        cbn [nth_error default]; unfold id;
        (destruct b as [|c b]; [cbn; intros H; discriminate H|]);
        cbn [JS.truthy_string negb];
        (destruct (verifyAccess (String c b)) as [payload|] eqn:Ev;
         [|intros H; discriminate H]);
        intros H; injection H as <-.
      * exists (String c b), "", payload. rewrite append_empty_r.
        repeat split; try assumption; try discriminate; auto.
        rewrite Hh by (rewrite Es; discriminate).
        rewrite Es, Er. reflexivity.
      * exists (String c b), (String " "%char rest2), payload.
        repeat split; try assumption; try discriminate; eauto.
        rewrite Hh by (rewrite Es; discriminate).
        rewrite Es, Er. reflexivity.
  - intros (token & rest & payload & Hauth & Hne & Hns & Hrest & Hv & ->).
    rewrite Hauth.
    change (default "" (Some ("Bearer " ++ token ++ rest)%string))
      with ("Bearer" ++ String " "%char (token ++ rest))%string.
    rewrite split_space_app by reflexivity.
    cbn [nth_error]. cbn [String.eqb Ascii.eqb Bool.eqb negb orb].
    assert (E : exists more, split_space (token ++ rest)%string = token :: more).
    { destruct Hrest as [->|[r ->]].
      - rewrite append_empty_r, split_space_no_space by assumption. eauto.
      - rewrite split_space_app by assumption. eauto. }
    destruct E as [more ->]. cbn [nth_error default]. unfold id.
    destruct token as [|c t]; [congruence|].
    cbn [JS.truthy_string negb]. now rewrite Hv.
Qed.

(** X9: [requireAuth] lets a request through exactly when its authorization
    header reads [Bearer], one space, a non-empty token without a space,
    and then either nothing or a space followed by anything, and the
    token verifies; [req.user] is then the token's subject and role.
    The scheme is compared with case, and what follows the token is
    ignored.  Every other request is answered 401, and the handler
    behind the guard is not reached. *)
Theorem requireAuth_accepts_iff
    (verifyAccess : string -> option JwtPayload) (h : HttpRequest) :
  (forall req,
      requireAuth verifyAccess h = inr req <->
      exists token rest payload,
        authorization h = Some ("Bearer " ++ token ++ rest)%string /\
        token <> "" /\ no_space token = true /\
        (rest = "" \/ exists r, rest = String " "%char r) /\
        verifyAccess token = Some payload /\
        req = {| params_id := http_params_id h;
                 userAnswers := http_userAnswers h;
                 user := Some {| uid := sub payload;
                                 role := payload_role payload |} |}) /\
  (forall resp st,
      requireAuth verifyAccess h = inl resp ->
      status resp = 401 /\ post_submit verifyAccess h st = (resp, st, [])).
Proof.
  split.
  - intros req. apply requireAuth_header_spec.
  - intros resp st H.
    destruct (requireAuth_rejects verifyAccess h resp H) as [m ->].
    split; [reflexivity|].
    unfold post_submit. rewrite H. reflexivity.
Qed.

(** ** The admin guard *)

(** X10: Behind [requireAuth], [isAdmin] never reads the role of a missing
    user: the guard pair either answers 401 (no usable token), answers
    403 "Admin access only" (a verified token whose role is not exactly
    [admin]), or passes the request on, and it passes exactly the
    requests with a well-formed header whose verified token carries the
    role [admin]. *)
Theorem admin_guard_outcome
    (verifyAccess : string -> option JwtPayload) (h : HttpRequest) :
  (forall e, admin_guard verifyAccess h <> Failed e) /\
  (forall r, admin_guard verifyAccess h = Answered r ->
             (status r = 401 /\ requireAuth verifyAccess h = inl r) \/
             (r = json 403 (AuthError "Admin access only") /\
              exists req u, requireAuth verifyAccess h = inr req /\
                            user req = Some u /\ role u <> "admin")) /\
  (forall req, admin_guard verifyAccess h = Passed req <->
               well_formed_bearer verifyAccess h req /\
               exists u, user req = Some u /\ role u = "admin").
Proof.
  unfold admin_guard.
  destruct (requireAuth verifyAccess h) as [resp|req0] eqn:E.
  - split; [discriminate|]. split.
    + intros r [= <-]. left.
      destruct (requireAuth_rejects verifyAccess h resp E) as [m ->]. auto.
    + intros req. split; [discriminate|].
      intros [Hw _]. apply requireAuth_header_spec in Hw. congruence.
  - pose proof (proj1 (requireAuth_header_spec verifyAccess h req0) E) as Hw.
    assert (Hu : exists u, user req0 = Some u).
    { destruct Hw as (? & ? & p & _ & _ & _ & _ & _ & ->). eauto. }
    destruct Hu as [u Hu]. unfold isAdmin. rewrite Hu.
    destruct (String.eqb_spec (role u) "admin") as [Er|Er]; cbn [negb].
    + split; [discriminate|]. split; [discriminate|].
      intros req. split.
      * intros [= <-]. split; [exact Hw|eauto].
      * intros [Hw' _]. apply requireAuth_header_spec in Hw'. congruence.
    + split; [discriminate|]. split.
      * intros r [= <-]. right. split; [reflexivity|]. eauto.
      * intros req. split; [discriminate|].
        intros [Hw' (u' & Hu' & Hr')].
        apply requireAuth_header_spec in Hw'.
        assert (req = req0) by congruence. subst req. congruence.
Qed.

(** The guard pair answers 401 or 403, or passes an admin on. *)
Lemma admin_guard_cases
    (verifyAccess : string -> option JwtPayload) (h : HttpRequest) :
  (exists r, admin_guard verifyAccess h = Answered r /\
             (status r = 401 \/ status r = 403)) \/
  (exists req u, admin_guard verifyAccess h = Passed req /\
                 well_formed_bearer verifyAccess h req /\
                 user req = Some u /\ role u = "admin").
Proof.
  unfold admin_guard.
  destruct (requireAuth verifyAccess h) as [resp|req0] eqn:E.
  - left. exists resp. split; [reflexivity|]. left.
    now destruct (requireAuth_rejects verifyAccess h resp E) as [m ->].
  - pose proof (proj1 (requireAuth_header_spec verifyAccess h req0) E) as Hw.
    assert (Hu : exists u, user req0 = Some u).
    { destruct Hw as (? & ? & p & _ & _ & _ & _ & _ & ->). eauto. }
    destruct Hu as [u Hu]. unfold isAdmin. rewrite Hu.
    destruct (String.eqb_spec (role u) "admin") as [Er|Er]; cbn [negb].
    + right. exists req0, u. auto.
    + left. eexists. split; [reflexivity|]. right. reflexivity.
Qed.

(** ** The error handler *)

Lemma lookup_connection_error_text code m :
  lookup_connection_error code = Some (Text m) ->
  In (default "undefined" code, m) mysqlConnectionErrors.
Proof.
  unfold lookup_connection_error.
  destruct (List.find _ mysqlConnectionErrors) as [[k v]|] eqn:E.
  - intros [= <-]. apply find_some in E as [Hin Hk].
    simpl in Hk. apply String.eqb_eq in Hk. now subst k.
  - destruct (existsb _ _); discriminate.
Qed.

(** X11: Outside development mode the handler does not disclose what an
    unexpected error says: for an error that is neither an AppError nor
    named ValidationError, the response is a function of [code] and
    [sqlMessage] alone, and the 500 answer carries the fixed text with
    no details.  The message of a ValidationError, by contrast, is
    always sent. *)
Theorem errorHandler_hides_message
    (NODE_ENV : option string) (name message : string)
    (code sqlMessage : option string) :
  NODE_ENV <> Some "development" ->
  name <> "ValidationError" ->
  (forall other,
      errorHandler NODE_ENV (OtherError name other code sqlMessage)
      = errorHandler NODE_ENV (OtherError name message code sqlMessage)) /\
  (error_status
     (errorHandler NODE_ENV (OtherError name message code sqlMessage)) = 500 ->
   errorHandler NODE_ENV (OtherError name message code sqlMessage)
   = {| error_status := 500; error_message := Text "Internal server error";
        error_details := None |}) /\
  error_details
    (errorHandler NODE_ENV
       (OtherError "ValidationError" message code sqlMessage))
  = Some message.
Proof.
  intros Henv Hname.
  assert (Edev : code_is NODE_ENV "development" = false).
  { destruct NODE_ENV as [e|]; [|reflexivity]. simpl.
    apply String.eqb_neq. congruence. }
  apply String.eqb_neq in Hname.
  split; [|split].
  - intros other. unfold errorHandler. rewrite Hname, Edev.
    destruct (lookup_connection_error code); [reflexivity|].
    destruct (code_is code "ER_DUP_ENTRY"); [reflexivity|].
    destruct (code_is code "ER_NO_REFERENCED_ROW_2"); reflexivity.
  - unfold errorHandler. rewrite Hname, Edev.
    destruct (lookup_connection_error code); [discriminate|].
    destruct (code_is code "ER_DUP_ENTRY"); [discriminate|].
    destruct (code_is code "ER_NO_REFERENCED_ROW_2"); [discriminate|].
    reflexivity.
  - reflexivity.
Qed.

Lemma errorHandler_hides_message_witness :
  errorHandler (Some "production")
    (OtherError "Error" "connect ETIMEDOUT 10.0.0.5:3306" (Some "ETIMEDOUT") None)
  = {| error_status := 500; error_message := Text "Internal server error";
       error_details := None |}.
Proof.
  refine (proj1 (proj2 (errorHandler_hides_message (Some "production") "Error"
                          "connect ETIMEDOUT 10.0.0.5:3306" (Some "ETIMEDOUT")
                          None _ _)) _).
  - discriminate.
  - discriminate.
  - reflexivity.
Defined.

Lemma default_code_eq code key :
  default "undefined" code = key -> key <> "undefined" -> code = Some key.
Proof. destruct code; simpl; congruence. Qed.

Lemma lookup_connection_error_text_iff code text :
  lookup_connection_error code = Some (Text text) <->
  In (default "undefined" code, text) mysqlConnectionErrors.
Proof.
  split; [apply lookup_connection_error_text|].
  unfold mysqlConnectionErrors. cbn [In].
  intros [H|[H|[H|[H|[]]]]]; injection H as Hk <-; symmetry in Hk;
    apply default_code_eq in Hk as ->; try discriminate; reflexivity.
Qed.

Lemma lookup_connection_error_inherited_iff code key :
  lookup_connection_error code = Some (Inherited key) <->
  code = Some key /\ In key Object_prototype_keys.
Proof.
  split.
  - unfold lookup_connection_error.
    destruct (List.find _ mysqlConnectionErrors); [discriminate|].
    destruct (existsb _ _) eqn:E; [|discriminate].
    intros [= Hk]. apply existsb_exists in E as (k & Hin & Hkk).
    apply String.eqb_eq in Hkk. rewrite Hk in Hkk. subst k.
    split; [|exact Hin].
    apply default_code_eq; [exact Hk|].
    intros ->. unfold Object_prototype_keys in Hin. cbn [In] in Hin.
    intuition discriminate.
  - intros [-> Hin]. unfold Object_prototype_keys in Hin. cbn [In] in Hin.
    repeat (destruct Hin as [<-|Hin]; [reflexivity|]). contradiction.
Qed.

Lemma code_is_true code text : code_is code text = true <-> code = Some text.
Proof.
  destruct code as [c|]; simpl; [|split; discriminate].
  rewrite String.eqb_eq. split; congruence.
Qed.

Lemma lookup_connection_error_constraint code :
  code = Some "ER_DUP_ENTRY" \/ code = Some "ER_NO_REFERENCED_ROW_2" ->
  lookup_connection_error code = None.
Proof. intros [->| ->]; reflexivity. Qed.

(** X12: How the handler classifies an error that is not an AppError: the
    status is 400, 503 or 500 and nothing else; a ValidationError is
    answered 400 whatever its code; 503 is answered with one of the four
    connection texts exactly for the four connection codes, but also,
    with a message that is not a text, for a code that names a property
    every object inherits (such as [constructor]); the two constraint
    codes are answered 400; and 500 is left for everything else. *)
Theorem errorHandler_classifies
    (NODE_ENV : option string) (name message : string)
    (code sqlMessage : option string) :
  let resp := errorHandler NODE_ENV (OtherError name message code sqlMessage) in
  (error_status resp = 400 \/ error_status resp = 503 \/
   error_status resp = 500) /\
  (name = "ValidationError" ->
   error_status resp = 400 /\ error_message resp = Text "Validation Error") /\
  (name <> "ValidationError" ->
   (forall text,
      (error_status resp = 503 /\ error_message resp = Text text) <->
      In (default "undefined" code, text) mysqlConnectionErrors) /\
   (forall key,
      (error_status resp = 503 /\ error_message resp = Inherited key) <->
      code = Some key /\ In key Object_prototype_keys) /\
   (error_status resp = 400 <->
      code = Some "ER_DUP_ENTRY" \/ code = Some "ER_NO_REFERENCED_ROW_2")).
Proof.
  cbv zeta. unfold errorHandler.
  destruct (String.eqb_spec name "ValidationError") as [->|Hname].
  - split; [auto|]. split; [auto|]. congruence.
  - split; [|split; [congruence|intros _]].
    + destruct (lookup_connection_error code); [auto|].
      destruct (code_is code "ER_DUP_ENTRY"); [auto|].
      destruct (code_is code "ER_NO_REFERENCED_ROW_2"); auto.
    + pose proof (lookup_connection_error_text_iff code) as Ht.
      pose proof (lookup_connection_error_inherited_iff code) as Hi.
      pose proof (lookup_connection_error_constraint code) as Hc.
      pose proof (code_is_true code "ER_DUP_ENTRY") as Hd.
      pose proof (code_is_true code "ER_NO_REFERENCED_ROW_2") as Hf.
      destruct (lookup_connection_error code) as [m|].
      * cbn [error_status error_message]. split; [|split].
        -- intros text. rewrite <- Ht. split; [intros [_ ->]|intros [= ->]]; auto.
        -- intros key. rewrite <- Hi. split; [intros [_ ->]|intros [= ->]]; auto.
        -- split; [discriminate|]. intros H. now specialize (Hc H).
      * split; [|split].
        -- intros text. rewrite <- Ht.
           split; [|discriminate]. intros [H _]. revert H.
           destruct (code_is code "ER_DUP_ENTRY"); [discriminate|].
           destruct (code_is code "ER_NO_REFERENCED_ROW_2"); discriminate.
        -- intros key. rewrite <- Hi.
           split; [|discriminate]. intros [H _]. revert H.
           destruct (code_is code "ER_DUP_ENTRY"); [discriminate|].
           destruct (code_is code "ER_NO_REFERENCED_ROW_2"); discriminate.
        -- destruct (code_is code "ER_DUP_ENTRY");
             [split; [intros _; left; now apply Hd|reflexivity]|].
           destruct (code_is code "ER_NO_REFERENCED_ROW_2");
             [split; [intros _; right; now apply Hf|reflexivity]|].
           cbn [error_status]. split; [discriminate|].
           intros [H|H]; [apply Hd in H|apply Hf in H]; discriminate.
Qed.

(** ** GET /users *)

(** X13: The user listing never answers with a list.  The handler reads
    [this.userBadgeService], a property the controller's constructor
    does not set, so a request that passes both guards with a usable
    user id ends in a TypeError handed to [next], which [errorHandler]
    answers with 500; every other request is answered 401 or 403. *)
Theorem get_users_never_succeeds
    (B : Type) (NODE_ENV : option string)
    (verifyAccess : string -> option JwtPayload) (h : HttpRequest) :
  (forall rows : B, get_users verifyAccess h <> Answered (inr rows)) /\
  (forall req : Request, @get_users B verifyAccess h <> Passed req) /\
  (forall r, @get_users B verifyAccess h = Answered (inl r) ->
             status r = 401 \/ status r = 403) /\
  (forall e, @get_users B verifyAccess h = Failed e ->
             error_status (errorHandler NODE_ENV e) = 500 /\
             error_message (errorHandler NODE_ENV e)
             = Text "Internal server error") /\
  (forall req u,
      well_formed_bearer verifyAccess h req ->
      user req = Some u -> role u = "admin" -> uid u <> 0 ->
      @get_users B verifyAccess h
      = Failed (TypeError_undefined "listUserBadgesByUserId")).
Proof.
  destruct (admin_guard_cases verifyAccess h)
    as [(r & E & Hr)|(req & u & E & Hw & Hu & Hrole)].
  - unfold get_users. rewrite E.
    split; [discriminate|]. split; [discriminate|]. split; [|split].
    + intros r' [= <-]. exact Hr.
    + discriminate.
    + intros req u Hw Hu Hrole _. exfalso.
      apply requireAuth_header_spec in Hw.
      unfold admin_guard, isAdmin in E. rewrite Hw, Hu, Hrole in E.
      discriminate.
  - unfold get_users. rewrite E.
    unfold UserController_list, new_UserController_userBadgeService, userId_of.
    rewrite Hu.
    destruct (JS.truthy_number (uid u)) eqn:Et.
    + split; [discriminate|]. split; [discriminate|].
      split; [discriminate|]. split.
      * intros e [= <-]. split; reflexivity.
      * reflexivity.
    + split; [discriminate|]. split; [discriminate|]. split; [|split].
      * intros r [= <-]. left. reflexivity.
      * discriminate.
      * intros req' u' Hw' Hu' _ Hid. exfalso.
        apply requireAuth_header_spec in Hw, Hw'.
        assert (req' = req) by congruence. subst req'.
        assert (u' = u) by congruence. subst u'.
        unfold JS.truthy_number in Et. apply negb_false_iff in Et.
        apply Z.eqb_eq in Et. contradiction.
Qed.

(** ** Completing a level *)

Lemma find_app_some {A} (f : A -> bool) (l more : list A) (x : A) :
  List.find f l = Some x -> List.find f (l ++ more) = Some x.
Proof.
  induction l as [|z l IH]; simpl; [discriminate|].
  destruct (f z); auto.
Qed.




(** ** Unlocking is monotone *)

Lemma submit_keeps_unlocked req st u l row :
  user_levels st !! (u, l) = Some row -> unlocked row = true ->
  exists row', user_levels (store_of (submit req st)) !! (u, l) = Some row' /\
               unlocked row' = true.
Proof.
  intros Hrow Hun.
  destruct (submit_cases req st)
    as [[-> _]|(scenario & answers & userId & Ha & Hs & Hsteps & Hu)];
    [eauto|].
  destruct (submit_recorded req st scenario answers userId Ha Hs Hsteps Hu)
    as (-> & _).
  unfold cascade_store. cbn [user_levels].
  set (c := completedThisLevel _ _ _ _ _).
  assert (Hcur : exists row',
             <[(userId, level_id scenario) :=
                 {| unlocked := true; completed := c |}]> (user_levels st)
               !! (u, l) = Some row' /\ unlocked row' = true).
  { destruct (decide ((userId, level_id scenario) = (u, l))) as [E|E].
    - rewrite E, lookup_insert_eq. eauto.
    - rewrite lookup_insert_ne by exact E. eauto. }
  destruct (c && (level_id scenario <? max_level)); [|exact Hcur].
  destruct (decide ((userId, level_id scenario + 1) = (u, l))) as [E|E].
  - rewrite E, lookup_insert_eq. eauto.
  - rewrite lookup_insert_ne by exact E. exact Hcur.
Qed.

(** X15: Unlocking is never taken back.  Whatever submissions follow, by
    whichever users, a UserLevel row that is unlocked stays present and
    unlocked: every row the handler writes has [unlocked = true].  (The
    [completed] flag enjoys no such guarantee: an imperfect resubmission
    clears it.) *)
Theorem unlocked_never_revoked
    (reqs : list Request) (st : Store) (u l : Z) (row : UserLevel) :
  user_levels st !! (u, l) = Some row -> unlocked row = true ->
  exists row',
    user_levels (submit_all reqs st) !! (u, l) = Some row' /\
    unlocked row' = true.
Proof.
  revert st row. induction reqs as [|req rest IH]; intros st row Hrow Hun.
  - simpl. eauto.
  - simpl.
    destruct (submit_keeps_unlocked req st u l row Hrow Hun)
      as (row1 & Hrow1 & Hun1).
    exact (IH _ row1 Hrow1 Hun1).
Qed.

Lemma unlocked_never_revoked_witness :
  let first := Demo.request 1 (Some 7) ["a"; "b"; "c"; "d"] in
  let later := [ Demo.request 1 (Some 7) ["x"; "x"; "x"; "x"];
                 Demo.request 2 (Some 8) ["a"];
                 Demo.request 1 (Some 7) [] ] in
  exists row',
    user_levels (submit_all later (store_of (submit first Demo.store)))
      !! (7, 2) = Some row' /\
    unlocked row' = true.
Proof.
  cbv zeta.
  apply (unlocked_never_revoked _ _ 7 2
           {| unlocked := true; completed := false |}).
  - vm_compute. reflexivity.
  - reflexivity.
Defined.

(** ** Whose rows the route writes *)

Lemma cascade_writes_user userId scenario scenarioId result st :
  Forall (fun w => write_user w = userId)
         (cascade_writes userId scenario scenarioId result st).
Proof.
  unfold cascade_writes, unlock_writes, award_writes.
  repeat constructor.
  destruct (completedThisLevel _ _ _ _ _); [|constructor].
  destruct (level_id scenario <? max_level);
    destruct (badge_to_award userId scenario st); repeat constructor.
Qed.

(** X16: Through the route, progression is only ever written for the subject
    of the verified token: every write a POST /scenarios/:id/submit
    issues is keyed by [payload.sub] of the token in the authorization
    header.  Nothing in the path or the body selects the user, and a
    request whose token does not verify writes nothing. *)
Theorem post_submit_writes_for_token_subject
    (verifyAccess : string -> option JwtPayload)
    (h : HttpRequest) (st : Store) :
  (forall w, In w (writes_of (post_submit verifyAccess h st)) ->
             exists token rest payload,
               authorization h = Some ("Bearer " ++ token ++ rest)%string /\
               verifyAccess token = Some payload /\
               write_user w = sub payload) /\
  ((forall token, verifyAccess token = None) ->
   writes_of (post_submit verifyAccess h st) = [] /\
   store_of (post_submit verifyAccess h st) = st).
Proof.
  unfold post_submit.
  destruct (requireAuth verifyAccess h) as [resp|req] eqn:E.
  - split; [intros w []|]. intros _. split; reflexivity.
  - pose proof (proj1 (requireAuth_header_spec verifyAccess h req) E)
      as (token & rest & payload & Hauth & _ & _ & _ & Hv & Hreq).
    split.
    + intros w Hw. exists token, rest, payload.
      split; [exact Hauth|]. split; [exact Hv|].
      destruct (submit_cases req st)
        as [[_ Hnone]|(scenario & answers & userId & Ha & Hs & Hsteps & Hu)].
      * rewrite Hnone in Hw. contradiction.
      * destruct (submit_recorded req st scenario answers userId
                    Ha Hs Hsteps Hu) as (_ & Hwr & _).
        cbv zeta in Hwr. rewrite Hwr in Hw.
        pose proof (cascade_writes_user userId scenario (params_id req)
                      (grade scenario (params_id req)
                         (Repo.findByScenario (params_id req) st) answers) st)
          as Hall.
        rewrite (proj1 (List.Forall_forall _ _) Hall w Hw).
        subst req. unfold userId_of in Hu. cbn [user uid] in Hu.
        destruct (JS.truthy_number (sub payload)); congruence.
    + intros Hnever. rewrite Hnever in Hv. discriminate.
Qed.

(** ** One user's submissions do not depend on another's *)

Lemma perfect_rows_agree u lvl a b :
  scenarios a = scenarios b ->
  (forall s, attempts a !! (u, s) = attempts b !! (u, s)) ->
  incl (perfect_rows u lvl a) (perfect_rows u lvl b).
Proof.
  intros Hs Ha [[u' s] x] Hin.
  apply perfect_row_spec in Hin as (-> & Hl & Hac & sc & Hf & Hlvl).
  apply perfect_row_spec. repeat split; try assumption.
  - now rewrite <- Ha.
  - exists sc. split; [|assumption].
    unfold Repo.findById in *. now rewrite <- Hs.
Qed.

Lemma perfect_rows_NoDup_rows u lvl st : List.NoDup (perfect_rows u lvl st).
Proof.
  unfold perfect_rows.
  apply List.NoDup_filter, NoDup_ListNoDup, NoDup_map_to_list.
Qed.

Lemma countPerfect_agree u lvl a b :
  scenarios a = scenarios b ->
  (forall s, attempts a !! (u, s) = attempts b !! (u, s)) ->
  Repo.countPerfectByUserInLevel u lvl a
  = Repo.countPerfectByUserInLevel u lvl b.
Proof.
  intros Hs Ha. unfold Repo.countPerfectByUserInLevel.
  fold (perfect_rows u lvl a). fold (perfect_rows u lvl b).
  f_equal. apply Nat.le_antisymm;
    (apply NoDup_incl_length; [apply perfect_rows_NoDup_rows|]);
    apply perfect_rows_agree; auto.
Qed.

Lemma find_filter_implied {A} (f g : A -> bool) (l : list A) :
  (forall x, f x = true -> g x = true) ->
  List.find f (List.filter g l) = List.find f l.
Proof.
  intros H. induction l as [|x l IH]; simpl; [reflexivity|].
  destruct (g x) eqn:Eg; simpl.
  - destruct (f x); [reflexivity|exact IH].
  - destruct (f x) eqn:Ef; [|exact IH].
    apply H in Ef. congruence.
Qed.

Lemma findByUserAndBadge_agree u badge a b :
  badges_of_user u (user_badges a) = badges_of_user u (user_badges b) ->
  Repo.findByUserAndBadge u badge a = Repo.findByUserAndBadge u badge b.
Proof.
  intros H. unfold Repo.findByUserAndBadge.
  rewrite <- (find_filter_implied (Repo.is_user_badge u badge)
                (fun r => ub_user_id r =? u) (user_badges a)),
          <- (find_filter_implied (Repo.is_user_badge u badge)
                (fun r => ub_user_id r =? u) (user_badges b)).
  - unfold badges_of_user in H. now rewrite H.
  - intros x Hx. unfold Repo.is_user_badge in Hx.
    now apply andb_prop in Hx as [Hx _].
  - intros x Hx. unfold Repo.is_user_badge in Hx.
    now apply andb_prop in Hx as [Hx _].
Qed.

Lemma agree_for_refl u st : agree_for u st st.
Proof. repeat split. Qed.

Lemma agree_for_sym u a b : agree_for u a b -> agree_for u b a.
Proof. intros (? & ? & ? & ? & ?). repeat split; auto. Qed.

Lemma agree_for_trans u a b c :
  agree_for u a b -> agree_for u b c -> agree_for u a c.
Proof.
  intros (? & ? & ? & Ha & ?) (? & ? & ? & Hb & ?).
  split; [congruence|]. split; [congruence|]. split; [congruence|].
  split; [|congruence]. intros s. now rewrite Ha.
Qed.

Lemma award_badge_agree u scenario result a b :
  agree_for u a b ->
  result_of (award_badge u scenario result a)
  = result_of (award_badge u scenario result b) /\
  writes_of (award_badge u scenario result a)
  = writes_of (award_badge u scenario result b) /\
  agree_for u (store_of (award_badge u scenario result a))
              (store_of (award_badge u scenario result b)).
Proof.
  intros H. pose proof H as (Hs & Hst & Hb & Ha & Hub).
  rewrite !award_badge_run.
  unfold Repo.findByLevel. rewrite Hb.
  destruct (List.find _ (badges b)) as [badge|];
    [|unfold result_of, store_of, writes_of; simpl; auto].
  rewrite (findByUserAndBadge_agree u (badge_id badge) a b Hub).
  destruct (Repo.findByUserAndBadge u (badge_id badge) b);
    unfold result_of, store_of, writes_of; simpl; [auto|].
  repeat split; try assumption.
  cbn [user_badges Repo.create]. unfold badges_of_user in *.
  now rewrite !List.filter_app, Hub.
Qed.

Lemma upsertProgress_agree u lvl un co a b :
  agree_for u a b ->
  agree_for u (Repo.upsertProgress u lvl un co a)
              (Repo.upsertProgress u lvl un co b).
Proof. intros (? & ? & ? & ? & ?). repeat split; assumption. Qed.

Lemma after_level_upsert_agree u scenario c p t result a b :
  agree_for u a b ->
  result_of (after_level_upsert u scenario c p t result a)
  = result_of (after_level_upsert u scenario c p t result b) /\
  writes_of (after_level_upsert u scenario c p t result a)
  = writes_of (after_level_upsert u scenario c p t result b) /\
  agree_for u (store_of (after_level_upsert u scenario c p t result a))
              (store_of (after_level_upsert u scenario c p t result b)).
Proof.
  intros H. rewrite !after_level_upsert_run. destruct c.
  - cbv zeta.
    assert (H' : agree_for u (after_unlock u scenario a)
                             (after_unlock u scenario b)).
    { unfold after_unlock. destruct (level_id scenario <? max_level);
        [now apply upsertProgress_agree|exact H]. }
    match goal with
    | |- context [award_badge ?x ?s ?r (after_unlock _ _ a)] =>
        destruct (award_badge_agree x s r _ _ H') as (E1 & E2 & E3)
    end.
    unfold result_of, store_of, writes_of in *. simpl in *.
    rewrite E1, E2. auto.
  - unfold result_of, store_of, writes_of. simpl. auto.
Qed.

Lemma recordSubmission_agree u scenario scenarioId result a b :
  agree_for u a b ->
  result_of (recordSubmission u scenario scenarioId result a)
  = result_of (recordSubmission u scenario scenarioId result b) /\
  writes_of (recordSubmission u scenario scenarioId result a)
  = writes_of (recordSubmission u scenario scenarioId result b) /\
  agree_for u (store_of (recordSubmission u scenario scenarioId result a))
              (store_of (recordSubmission u scenario scenarioId result b)).
Proof.
  intros H. rewrite !recordSubmission_run. cbv zeta.
  assert (H1 : agree_for u (after_best_score u scenarioId result a)
                           (after_best_score u scenarioId result b)).
  { destruct H as (? & ? & ? & Ha & ?). repeat split; try assumption.
    intros s. unfold after_best_score, Repo.upsertBestScore. cbn [attempts].
    destruct (decide ((u, scenarioId) = (u, s))) as [E|E].
    - rewrite E, !lookup_insert_eq. reflexivity.
    - rewrite !lookup_insert_ne by exact E. apply Ha. }
  pose proof H1 as (Hs1 & _ & _ & Ha1 & _).
  assert (Et : Repo.countByLevel (level_id scenario)
                 (after_best_score u scenarioId result a)
               = Repo.countByLevel (level_id scenario)
                   (after_best_score u scenarioId result b)).
  { unfold Repo.countByLevel. now rewrite Hs1. }
  pose proof (countPerfect_agree u (level_id scenario) _ _ Hs1 Ha1) as Ep.
  unfold completed_flag. rewrite Et, Ep.
  set (c := (0 <? _) && _).
  pose proof (upsertProgress_agree u (level_id scenario) true c _ _ H1) as H2.
  match goal with
  | |- context [after_level_upsert ?x ?s ?c ?p ?t ?r
                  (Repo.upsertProgress _ _ _ _ (after_best_score _ _ _ a))] =>
      destruct (after_level_upsert_agree x s c p t r _ _ H2) as (E1 & E2 & E3)
  end.
  unfold result_of, store_of, writes_of in *. simpl in *.
  rewrite E1, E2. repeat split; try apply E3.
  unfold Repo.findById. destruct E3 as (-> & _). reflexivity.
Qed.

(** A submission sees only the content and, for a signed-in user, that
    user's own rows. *)
Lemma submit_agree req a b :
  scenarios a = scenarios b -> scenario_steps a = scenario_steps b ->
  (forall u, userId_of req = Some u -> agree_for u a b) ->
  result_of (submit req a) = result_of (submit req b) /\
  writes_of (submit req a) = writes_of (submit req b) /\
  (forall u, userId_of req = Some u ->
             agree_for u (store_of (submit req a)) (store_of (submit req b))).
Proof.
  intros Hs Hst Hag.
  assert (Hf : Repo.findById (params_id req) a = Repo.findById (params_id req) b)
    by (unfold Repo.findById; now rewrite Hs).
  assert (Hfs : Repo.findByScenario (params_id req) a
                = Repo.findByScenario (params_id req) b)
    by (unfold Repo.findByScenario; now rewrite Hst).
  destruct (Array_isArray (userAnswers req)) eqn:Ha.
  - destruct (Repo.findById (params_id req) b) as [scenario|] eqn:Hsc.
    + destruct (Repo.findByScenario (params_id req) b) as [|s0 l] eqn:Hsteps.
      * rewrite (submit_no_steps req b scenario Ha Hsc Hsteps).
        rewrite (submit_no_steps req a scenario Ha Hf Hfs).
        unfold result_of, store_of, writes_of. simpl. auto.
      * destruct (userAnswers req) as [| | | | | |answers] eqn:Hv;
          try discriminate Ha.
        assert (Hne : Repo.findByScenario (params_id req) b <> [])
          by (rewrite Hsteps; discriminate).
        assert (Hne' : Repo.findByScenario (params_id req) a <> [])
          by (rewrite Hfs; discriminate).
        rewrite (submit_graded req b scenario answers Hv Hsc Hne).
        rewrite (submit_graded req a scenario answers Hv Hf Hne').
        cbv zeta. rewrite Hfs, Hsteps.
        destruct (userId_of req) as [u|].
        -- match goal with
           | |- context [recordSubmission ?x ?s ?i ?r b] =>
               destruct (recordSubmission_agree x s i r a b (Hag u eq_refl))
                 as (E1 & E2 & E3)
           end.
           unfold result_of, store_of, writes_of in *. simpl in *.
           rewrite E1, E2. split; [reflexivity|]. split; [reflexivity|].
           intros u' [= <-]. exact E3.
        -- unfold result_of, store_of, writes_of. simpl.
           split; [reflexivity|]. split; [reflexivity|]. discriminate.
    + rewrite (submit_no_scenario req b Ha Hsc).
      rewrite (submit_no_scenario req a Ha Hf).
      unfold result_of, store_of, writes_of. simpl. auto.
  - rewrite !(submit_not_array req _ Ha).
    unfold result_of, store_of, writes_of. simpl. auto.
Qed.

(** What another user's submission leaves of user [u]'s view. *)
Lemma submit_other_agree other st u :
  userId_of other <> Some u ->
  agree_for u (store_of (submit other st)) st.
Proof.
  intros Hne.
  destruct (submit_cases other st)
    as [[-> _]|(scenario & answers & v & Ha & Hs & Hsteps & Hu)];
    [apply agree_for_refl|].
  destruct (submit_recorded other st scenario answers v Ha Hs Hsteps Hu)
    as (-> & _).
  assert (Hvu : v <> u) by congruence.
  unfold cascade_store. repeat split; cbn [attempts user_badges].
  - intros s. apply lookup_insert_ne. congruence.
  - destruct (completedThisLevel _ _ _ _ _); [|reflexivity].
    unfold badges_of_user. rewrite List.filter_app.
    destruct (badge_to_award v scenario st); cbn [award_rows List.filter];
      [|apply app_nil_r].
    cbn [ub_user_id].
    destruct (Z.eqb_spec v u); [contradiction|apply app_nil_r].
Qed.

Lemma submit_all_others_agree others : forall st u,
  Forall (fun other => userId_of other <> Some u) others ->
  agree_for u (submit_all others st) st.
Proof.
  induction others as [|other rest IH]; intros st u Hall.
  - apply agree_for_refl.
  - simpl. inversion Hall as [|? ? Hne Hrest]; subst.
    eapply agree_for_trans; [apply IH, Hrest|].
    now apply submit_other_agree.
Qed.

(** X17: Users do not interfere.  Whatever submissions other users (or
    guests) made in between, a request gets the response, and issues the
    writes, it would have got without them: grading reads the content
    only, and the progression cascade reads and counts the rows of the
    submitting user alone. *)
Theorem other_users_do_not_interfere
    (others : list Request) (req : Request) (st : Store) :
  (forall u, userId_of req = Some u ->
             Forall (fun other => userId_of other <> Some u) others) ->
  result_of (submit req (submit_all others st)) = result_of (submit req st) /\
  writes_of (submit req (submit_all others st)) = writes_of (submit req st).
Proof.
  intros Hothers.
  assert (Hcontent : forall l s,
             scenarios (submit_all l s) = scenarios s /\
             scenario_steps (submit_all l s) = scenario_steps s).
  { induction l as [|r l IH]; intros s; [split; reflexivity|].
    simpl. destruct (IH (store_of (submit r s))) as [-> ->].
    destruct (submit_cases r s)
      as [[-> _]|(scenario & answers & v & Ha & Hs & Hsteps & Hu)];
      [split; reflexivity|].
    destruct (submit_recorded r s scenario answers v Ha Hs Hsteps Hu)
      as (-> & _).
    split; reflexivity. }
  destruct (Hcontent others st) as [Hs Hst].
  destruct (submit_agree req (submit_all others st) st Hs Hst)
    as (E1 & E2 & _).
  - intros u Hu. apply submit_all_others_agree. now apply Hothers.
  - split; assumption.
Qed.

Lemma other_users_do_not_interfere_witness :
  let others := [ Demo.request 1 (Some 8) ["a"; "b"; "c"; "d"];
                  Demo.request 2 None ["a"] ] in
  let req := Demo.request 1 (Some 7) ["a"; "b"; "c"; "d"] in
  result_of (submit req (submit_all others Demo.store))
  = result_of (submit req Demo.store).
Proof.
  cbv zeta.
  refine (proj1 (other_users_do_not_interfere _ _ Demo.store _)).
  intros u Hu. injection Hu as <-.
  repeat constructor; discriminate.
Defined.
